(** * HumanPoseEstimation (src/post.jsx): a shallow embedding

    The component keeps five [useState] cells and one canvas ref, calls the
    PoseNet library through two awaited promises and paints the result on a
    2D canvas.

    - The hook cells and [canvasRef.current] are a record; a setter writes
      its cell at once (handlers read the cells only when they start, and a
      render separates any two events).  A call resumed after the
      component has unmounted still makes its setter calls; React ignores
      them, so the cells of an unmounted component are a record of those
      calls and not a displayed state: what is said of the displayed state
      is said of states with the canvas mounted.
    - The canvas is its size and the list of calls made on its 2D context.
    - [estimatePose] is cut at its two [await]s: the call runs up to
      [posenet.load], and is resumed when the environment settles the
      promise it waits on.  Several calls can be suspended at once.
    - The user's actions, the decoded files, the settled promises and the
      unmounting of the component are the events of a transition system;
      [enabled] says which of them the rendered JSX offers.
    - Every setter call, model call, console message and download is
      appended to a trace, so that their order can be stated.
    - [posenet.getAdjacentKeyPoints] and [canvas.toDataURL] belong to the
      library and the platform: they are parameters ([External]).
    - [handleUploadClick] only opens the file picker and is left out. *)

From Stdlib Require Import PrimFloat.
From stdpp Require Import list strings pretty gmap.

Open Scope float_scope.
Open Scope string_scope.
Open Scope list_scope.
Open Scope nat_scope.

(** ** Data model *)

(** JavaScript numbers are binary64 floats; [a > b] is [PrimFloat.ltb b a]. *)
Definition js_gt (a b : float) : bool := PrimFloat.ltb b a.

(** [Math.PI] *)
Definition Math_PI : float := 0x1.921fb54442d18p+1%float.

(** A decoded bitmap: [new Image()] after its [onload]. *)
Record Image := mkImage {
  src : string;
  width : N;
  height : N;
}.

(** [keypoint.position] *)
Record Position := mkPosition {
  x : float;
  y : float;
}.

Record Keypoint := mkKeypoint {
  part : string;
  position : Position;
  score : float;
}.

(** What [net.estimateSinglePose] resolves to. *)
Record Pose := mkPose {
  keypoints : list Keypoint;
  pose_score : float;
}.

(** The argument of [posenet.load]. *)
Record InputResolution := mkInputResolution {
  res_width : N;
  res_height : N;
}.

Record ModelConfig := mkModelConfig {
  inputResolution : InputResolution;
  scale : float;
}.

(** The loaded network is opaque: a handle. *)
Definition Net := nat.

(** What a [catch] can receive. *)
Inductive JsError :=
| TypeError (msg : string)
| Rejection (reason : string).

(** Calls and assignments on a [CanvasRenderingContext2D], in the argument
    order of the DOM interface. *)
Inductive CtxOp :=
| drawImage (img : Image) (dx dy : float)
| beginPath
| arc (cx cy radius startAngle endAngle : float)
| set_fillStyle (color : string)
| fill
| moveTo (mx my : float)
| lineTo (lx ly : float)
| set_lineWidth (w : float)
| set_strokeStyle (color : string)
| stroke.

(** The 2D context: the calls made on it so far, oldest first. *)
Definition Ctx := list CtxOp.

(** The canvas element.  Assigning [width] or [height] resets the bitmap,
    as the DOM prescribes. *)
Record Canvas := mkCanvas {
  canvas_width : N;
  canvas_height : N;
  painted : Ctx;
}.

Definition set_canvas_width (w : N) (c : Canvas) : Canvas :=
  mkCanvas w (canvas_height c) [].

Definition set_canvas_height (h : N) (c : Canvas) : Canvas :=
  mkCanvas (canvas_width c) h [].

Definition with_painted (ctx : Ctx) (c : Canvas) : Canvas :=
  mkCanvas (canvas_width c) (canvas_height c) ctx.

(** The freshly mounted [<canvas>]: the DOM default size, nothing drawn. *)
Definition blank_canvas : Canvas := mkCanvas 300 150 [].

(** The parts of the platform and of PoseNet that the component calls but
    does not define. *)
Class External := {
  (** [posenet.getAdjacentKeyPoints(keypoints, minConfidence)] *)
  getAdjacentKeyPoints : list Keypoint -> float -> list (Keypoint * Keypoint);
  (** [canvas.toDataURL(type)] *)
  toDataURL : Canvas -> string -> string;
}.

(** ** Drawing (post.jsx, lines 54-100) *)

(** [const toTuple = ({ y, x }) => [y, x];] *)
Definition toTuple (p : Position) : float * float := (y p, x p).

(** [const drawSegment = ([ay, ax], [by, bx], color, ctx) => ...] *)
Definition drawSegment (a b : float * float) (color : string) (ctx : Ctx) : Ctx :=
  let '(ay, ax) := a in
  let '(by', bx) := b in
  ctx ++ [beginPath; moveTo ax ay; lineTo bx by';
          set_lineWidth 2; set_strokeStyle color; stroke].

(** The body of the [forEach] callback of [drawKeypoints]. *)
Definition drawKeypoint (minConfidence : float) (ctx : Ctx) (keypoint : Keypoint) : Ctx :=
  if js_gt (score keypoint) minConfidence then
    let py := y (position keypoint) in
    let px := x (position keypoint) in
    ctx ++ [beginPath; arc px py 5 0 (2 * Math_PI); set_fillStyle "red"; fill]
  else ctx.

Definition drawKeypoints (keypoints : list Keypoint) (minConfidence : float)
    (ctx : Ctx) : Ctx :=
  foldl (drawKeypoint minConfidence) ctx keypoints.

Definition drawSkeleton `{External} (keypoints : list Keypoint) (minConfidence : float)
    (ctx : Ctx) : Ctx :=
  let adjacentKeyPoints := getAdjacentKeyPoints keypoints minConfidence in
  foldl (fun ctx (keypoints : Keypoint * Keypoint) =>
           drawSegment (toTuple (position (fst keypoints)))
                       (toTuple (position (snd keypoints)))
                       "green" ctx)
        ctx adjacentKeyPoints.

(** ** Component state *)

(** The five [useState] cells and [canvasRef.current]. *)
Record State := mkState {
  images : list Image;
  currentImageIndex : nat;
  poses : list Pose;
  isLoading : bool;
  error : option string;
  canvasRef : option Canvas;
}.

(** Where a suspended [estimatePose] waits. *)
Inductive Stage :=
| AwaitLoad                  (* at [await posenet.load(...)] *)
| AwaitEstimate (net : Net). (* at [await net.estimateSinglePose(img)] *)

(** A suspended call of [estimatePose(img)]; [None] is [undefined]. *)
Record Task := mkTask {
  task_img : option Image;
  task_stage : Stage;
}.

(** What the component does to the outside, in order. *)
Inductive Effect :=
| Call_setImages (imgs : list Image)
| Call_setCurrentImageIndex (index : nat)
| Call_setPoses (ps : list Pose)
| Call_setIsLoading (b : bool)
| Call_setError (e : option string)
| Call_posenet_load (task : nat) (config : ModelConfig)
| Call_estimateSinglePose (task : nat) (net : Net) (img : option Image)
| Call_console_error (msg : string) (err : JsError)
| Call_link_click (download href : string).

Inductive Mode := upload | preloaded.

#[global] Instance Mode_eq_dec : EqDecision Mode.
Proof. solve_decision. Defined.

(** The component together with what is in flight around it. *)
Record World := mkWorld {
  mode : Mode;
  component : State;
  pending : gmap nat Task;                 (* suspended estimatePose calls *)
  nextTask : nat;
  readers : gmap nat (list (option Image)); (* Promise.all batches of loadImages *)
  nextBatch : nat;
  trace : list Effect;
}.

(** *** Updates of single fields *)

Definition with_component (f : State -> State) (w : World) : World :=
  mkWorld (mode w) (f (component w)) (pending w) (nextTask w)
          (readers w) (nextBatch w) (trace w).

Definition emit (e : Effect) (w : World) : World :=
  mkWorld (mode w) (component w) (pending w) (nextTask w)
          (readers w) (nextBatch w) (trace w ++ [e]).

Definition with_pending (f : gmap nat Task -> gmap nat Task) (w : World) : World :=
  mkWorld (mode w) (component w) (f (pending w)) (nextTask w)
          (readers w) (nextBatch w) (trace w).

Definition with_nextTask (n : nat) (w : World) : World :=
  mkWorld (mode w) (component w) (pending w) n
          (readers w) (nextBatch w) (trace w).

Definition with_readers (f : gmap nat (list (option Image)) -> gmap nat (list (option Image)))
    (w : World) : World :=
  mkWorld (mode w) (component w) (pending w) (nextTask w)
          (f (readers w)) (nextBatch w) (trace w).

Definition with_nextBatch (n : nat) (w : World) : World :=
  mkWorld (mode w) (component w) (pending w) (nextTask w)
          (readers w) n (trace w).

(** *** The state setters returned by [useState] *)

Definition setImages (imgs : list Image) (w : World) : World :=
  emit (Call_setImages imgs)
    (with_component (fun s => mkState imgs (currentImageIndex s) (poses s)
                                      (isLoading s) (error s) (canvasRef s)) w).

Definition setCurrentImageIndex (index : nat) (w : World) : World :=
  emit (Call_setCurrentImageIndex index)
    (with_component (fun s => mkState (images s) index (poses s)
                                      (isLoading s) (error s) (canvasRef s)) w).

Definition setPoses (ps : list Pose) (w : World) : World :=
  emit (Call_setPoses ps)
    (with_component (fun s => mkState (images s) (currentImageIndex s) ps
                                      (isLoading s) (error s) (canvasRef s)) w).

Definition setIsLoading (b : bool) (w : World) : World :=
  emit (Call_setIsLoading b)
    (with_component (fun s => mkState (images s) (currentImageIndex s) (poses s)
                                      b (error s) (canvasRef s)) w).

Definition setError (e : option string) (w : World) : World :=
  emit (Call_setError e)
    (with_component (fun s => mkState (images s) (currentImageIndex s) (poses s)
                                      (isLoading s) e (canvasRef s)) w).

Definition set_canvasRef (c : option Canvas) (w : World) : World :=
  with_component (fun s => mkState (images s) (currentImageIndex s) (poses s)
                                   (isLoading s) (error s) c) w.

(** ** Exceptions and promises *)

(** How a synchronous piece of code ends; the world is the one reached when
    it ended. *)
Inductive Completion :=
| Normal (w : World)
| Throw (err : JsError) (w : World).

(** How an awaited promise settles. *)
Inductive Settled (A : Type) :=
| Fulfilled (v : A)
| Rejected (err : JsError).
Arguments Fulfilled {A} v.
Arguments Rejected {A} err.

(** [try { body } catch (err) { handler }] *)
Definition try_catch (body : Completion) (handler : JsError -> World -> World) : World :=
  match body with
  | Normal w => w
  | Throw err w => handler err w
  end.

(** An exception nobody catches ends the handler where it is. *)
Definition uncaught (c : Completion) : World :=
  match c with
  | Normal w => w
  | Throw _ w => w
  end.

(** ** estimatePose and drawResults (post.jsx, lines 36-65) *)

(** [posenet.load({ inputResolution: { width: 640, height: 480 }, scale: 0.5 })] *)
Definition posenet_config : ModelConfig :=
  mkModelConfig (mkInputResolution 640 480) 0.5.

Definition error_message : string :=
  "Failed to estimate pose. Please try another image.".

(** The drawing part of [drawResults]: resize the canvas to the image,
    draw the image, then the keypoints and the skeleton of every pose. *)
Definition paint_results `{External} (img : Image) (poses : list Pose)
    (canvas : Canvas) : Canvas :=
  let canvas := set_canvas_width (width img) canvas in
  let canvas := set_canvas_height (height img) canvas in
  let ctx := painted canvas ++ [drawImage img 0 0] in
  let ctx :=
    foldl (fun ctx pose =>
             drawSkeleton (keypoints pose) 0.5
               (drawKeypoints (keypoints pose) 0.5 ctx))
          ctx poses in
  with_painted ctx canvas.

(** [drawResults(img, poses)].  [canvas.getContext] on a null ref and
    [img.width] on [undefined] throw a TypeError before anything is drawn. *)
Definition drawResults `{External} (img : option Image) (poses : list Pose)
    (w : World) : Completion :=
  match canvasRef (component w) with
  | None => Throw (TypeError "canvas is null") w
  | Some canvas =>
      match img with
      | None => Throw (TypeError "img is undefined") w
      | Some img => Normal (set_canvasRef (Some (paint_results img poses canvas)) w)
      end
  end.

(** [estimatePose(img)] up to its first [await]: the loading flag, the
    error reset and the call of [posenet.load]. *)
Definition estimatePose (img : option Image) (w : World) : World :=
  let w := setIsLoading true w in
  let w := setError None w in
  let task := nextTask w in
  let w := emit (Call_posenet_load task posenet_config) w in
  with_nextTask (S task) (with_pending (insert task (mkTask img AwaitLoad)) w).

(** The [catch] block. *)
Definition estimatePose_catch (err : JsError) (w : World) : World :=
  let w := emit (Call_console_error "Error in estimatePose: " err) w in
  setError (Some error_message) w.

(** The statement after the [try]: [setIsLoading(false)]. *)
Definition estimatePose_end (w : World) : World := setIsLoading false w.

(** Resumption at [await posenet.load(...)]. *)
Definition estimatePose_loaded (task : nat) (img : option Image) (r : Settled Net)
    (w : World) : World :=
  match r with
  | Fulfilled net =>
      let w := emit (Call_estimateSinglePose task net img) w in
      with_pending (insert task (mkTask img (AwaitEstimate net))) w
  | Rejected err =>
      estimatePose_end (estimatePose_catch err (with_pending (delete task) w))
  end.

(** Resumption at [await net.estimateSinglePose(img)]. *)
Definition estimatePose_estimated `{External} (task : nat) (img : option Image)
    (r : Settled Pose) (w : World) : World :=
  let w := with_pending (delete task) w in
  match r with
  | Fulfilled pose =>
      let w := setPoses [pose] w in
      estimatePose_end (try_catch (drawResults img [pose] w) estimatePose_catch)
  | Rejected err =>
      estimatePose_end (estimatePose_catch err w)
  end.

(** ** Handlers (post.jsx, lines 14-34 and 102-126) *)

(** A file picked by the user; its content is opaque here. *)
Record File := mkFile { file_name : string }.

(** The [then] of [Promise.all(readers)]. *)
Definition loadImages_then (loadedImages : list Image) (w : World) : World :=
  let w := setImages loadedImages w in
  if bool_decide (0 < length loadedImages)
  then estimatePose (loadedImages !! 0) w
  else w.

(** [Promise.all] resolves once every reader has; then the [then] runs. *)
Definition Promise_all (batch : nat) (w : World) : World :=
  match readers w !! batch with
  | Some slots =>
      match mapM id slots with
      | Some loadedImages => loadImages_then loadedImages (with_readers (delete batch) w)
      | None => w
      end
  | None => w
  end.

(** [loadImages(e)]: one pending reader per file. *)
Definition loadImages (files : list File) (w : World) : World :=
  let batch := nextBatch w in
  let w := with_readers (insert batch (replicate (length files) None)) w in
  Promise_all batch (with_nextBatch (S batch) w).

(** [img.onload = () => resolve(img)] of reader [k] in a batch. *)
Definition reader_resolved (batch k : nat) (img : Image) (w : World) : World :=
  match readers w !! batch with
  | Some slots =>
      match slots !! k with
      | Some None =>
          Promise_all batch (with_readers (insert batch (<[k := Some img]> slots)) w)
      | _ => w
      end
  | None => w
  end.

(** [handleImageSelect]; [index] is [parseInt(e.target.value)] of an
    [<option value={index}>]. *)
Definition handleImageSelect (index : nat) (w : World) : World :=
  let imgs := images (component w) in
  let w := setCurrentImageIndex index w in
  estimatePose (imgs !! index) w.

(** [String.prototype.replace] with a string pattern: the first occurrence. *)
Fixpoint strip_prefix (p s : string) : option string :=
  match p, s with
  | EmptyString, _ => Some s
  | String a p', String b s' => if Ascii.eqb a b then strip_prefix p' s' else None
  | String _ _, EmptyString => None
  end.

Fixpoint replace (pattern replacement s : string) {struct s} : string :=
  match strip_prefix pattern s with
  | Some rest => replacement +:+ rest
  | None =>
      match s with
      | EmptyString => EmptyString
      | String c s' => String c (replace pattern replacement s')
      end
  end.

(** The file name given to the download link. *)
Definition download_name (currentImageIndex : nat) : string :=
  "pose_estimation_" +:+ pretty (currentImageIndex + 1) +:+ ".png".

(** [handleDownload] *)
Definition handleDownload `{External} (w : World) : Completion :=
  match canvasRef (component w) with
  | None => Throw (TypeError "canvas is null") w
  | Some canvas =>
      let image := replace "image/png" "image/octet-stream"
                           (toDataURL canvas "image/png") in
      Normal (emit (Call_link_click
                      (download_name (currentImageIndex (component w))) image) w)
  end.

(** The effect on [preloadedImage]. *)
Definition preloadedImage_effect (preloadedImage : option Image) (w : World) : World :=
  match preloadedImage with
  | Some img => estimatePose (Some img) (setImages [img] w)
  | None => w
  end.

(** ** The transition system *)

Inductive Event :=
| FilesChosen (files : list File)          (* onChange of the file input *)
| FileDecoded (batch k : nat) (img : Image) (* a reader's image has loaded *)
| PreloadedImage (img : option Image)      (* the effect runs *)
| ImageSelected (index : nat)              (* onChange of the select *)
| DownloadClicked
| LoadSettled (task : nat) (r : Settled Net)
| EstimateSettled (task : nat) (r : Settled Pose)
| Unmounted.                               (* the component unmounts *)

(** A promise settles once: an event for a call that does not wait on it
    changes nothing.  On unmount React sets [canvasRef.current] back to
    null; calls already suspended are still resumed afterwards, and their
    setter calls are made.  React ignores state updates of an unmounted
    component: from then on the cells only record what the setters were
    called with, and nothing displays them. *)
Definition handle `{External} (e : Event) (w : World) : World :=
  match e with
  | FilesChosen files => loadImages files w
  | FileDecoded batch k img => reader_resolved batch k img w
  | PreloadedImage img => preloadedImage_effect img w
  | ImageSelected index => handleImageSelect index w
  | DownloadClicked => uncaught (handleDownload w)
  | LoadSettled task r =>
      match pending w !! task with
      | Some (mkTask img AwaitLoad) => estimatePose_loaded task img r w
      | _ => w
      end
  | EstimateSettled task r =>
      match pending w !! task with
      | Some (mkTask img (AwaitEstimate _)) => estimatePose_estimated task img r w
      | _ => w
      end
  | Unmounted => set_canvasRef None w
  end.

(** What the rendered JSX offers: the file input only in upload mode, the
    select only with its options [0 .. images.length - 1], the download
    button only with images and when not loading; nothing once unmounted. *)
Definition mounted (w : World) : bool := bool_decide (is_Some (canvasRef (component w))).

Definition enabled (w : World) (e : Event) : bool :=
  match e with
  | FilesChosen _ => mounted w && bool_decide (mode w = upload)
  | PreloadedImage _ => mounted w
  | ImageSelected index => mounted w && bool_decide (index < length (images (component w)))
  | DownloadClicked =>
      mounted w && bool_decide (0 < length (images (component w)))
      && negb (isLoading (component w))
  | Unmounted => mounted w
  | FileDecoded _ _ _ | LoadSettled _ _ | EstimateSettled _ _ => true
  end.

(** The component just mounted. *)
Definition initial (m : Mode) : World :=
  mkWorld m (mkState [] 0 [] false None (Some blank_canvas)) ∅ 0 ∅ 0 [].

(** Run a sequence of events, skipping those the UI does not offer. *)
Definition step `{External} (w : World) (e : Event) : World :=
  if enabled w e then handle e w else w.

Definition run `{External} (es : list Event) (w : World) : World :=
  foldl step w es.

Inductive reachable `{External} (m : Mode) : World -> Prop :=
| reachable_initial : reachable m (initial m)
| reachable_step w e :
    reachable m w -> enabled w e = true -> reachable m (handle e w).

(** ** Vocabulary of the properties *)

(** The marker of one keypoint: a filled red disc of radius 5 at its
    position. *)
Definition marker (k : Keypoint) : list CtxOp :=
  [beginPath; arc (x (position k)) (y (position k)) 5 0 (2 * Math_PI);
   set_fillStyle "red"; fill].

(** The green line between two keypoints, from the first to the second. *)
Definition segment (a b : Keypoint) : list CtxOp :=
  [beginPath; moveTo (x (position a)) (y (position a));
   lineTo (x (position b)) (y (position b));
   set_lineWidth 2; set_strokeStyle "green"; stroke].

(** A keypoint whose score is strictly above the threshold. *)
Definition confident (minConfidence : float) (k : Keypoint) : bool :=
  js_gt (score k) minConfidence.

Definition is_fill (op : CtxOp) : bool :=
  match op with fill => true | _ => false end.

(** How many filled shapes a context has received. *)
Definition filled_markers (ctx : Ctx) : nat := length (List.filter is_fill ctx).

(** The canvas shows image [img] with the poses [ps] drawn over it: it is
    what [drawResults(img, ps)] leaves. *)
Definition shows `{External} (c : Canvas) (img : Image) (ps : list Pose) : Prop :=
  exists before, c = paint_results img ps before.

(** How one call of [estimatePose] ends. *)
Inductive Outcome :=
| LoadRejected (err : JsError)
| EstimateRejected (net : Net) (err : JsError)
| Estimated (net : Net) (pose : Pose).

(** One call of [estimatePose(img)] run to its end with no other event in
    between: the call, then its promises settling as [o] says. *)
Definition estimatePose_alone `{External} (img : option Image) (o : Outcome)
    (w : World) : World :=
  let task := nextTask w in
  let w := estimatePose img w in
  match o with
  | LoadRejected err => handle (LoadSettled task (Rejected err)) w
  | EstimateRejected net err =>
      handle (EstimateSettled task (Rejected err))
             (handle (LoadSettled task (Fulfilled net)) w)
  | Estimated net pose =>
      handle (EstimateSettled task (Fulfilled pose))
             (handle (LoadSettled task (Fulfilled net)) w)
  end.

(** An event that ends a suspended call of [estimatePose]: its load
    rejects, or its estimate settles either way. *)
Definition completes (w : World) (e : Event) : bool :=
  match e with
  | LoadSettled task (Rejected _) =>
      match pending w !! task with
      | Some (mkTask _ AwaitLoad) => true
      | _ => false
      end
  | EstimateSettled task _ =>
      match pending w !! task with
      | Some (mkTask _ (AwaitEstimate _)) => true
      | _ => false
      end
  | _ => false
  end.

(** A run of events during which no call of [estimatePose] ends. *)
Fixpoint quiet `{External} (w : World) (es : list Event) : Prop :=
  match es with
  | [] => True
  | e :: es => completes w e = false /\ quiet (step w e) es
  end.

(** The event settles a promise awaited by the call suspended as task [t]. *)
Definition settles (t : nat) (e : Event) : bool :=
  match e with
  | LoadSettled task _ | EstimateSettled task _ => bool_decide (task = t)
  | _ => false
  end.

(** The event resumes a suspended call whose [try] block then throws: the
    awaited promise rejects, or both have fulfilled and [drawResults]
    throws after [setPoses]. *)
Definition try_block_throws `{External} (w : World) (e : Event) : bool :=
  match e with
  | LoadSettled task r =>
      match pending w !! task, r with
      | Some (mkTask _ AwaitLoad), Rejected _ => true
      | _, _ => false
      end
  | EstimateSettled task r =>
      match pending w !! task with
      | Some (mkTask img (AwaitEstimate _)) =>
          match r with
          | Rejected _ => true
          | Fulfilled pose =>
              match drawResults img [pose]
                      (setPoses [pose] (with_pending (delete task) w)) with
              | Throw _ _ => true
              | Normal _ => false
              end
          end
      | _ => false
      end
  | _ => false
  end.

(** The call of [estimatePose(img)] suspended as task [t] is in flight and
    no error has been set since it began. *)
Definition unfailed_call (t : nat) (img : option Image) (w : World) : Prop :=
  error (component w) = None
  /\ (exists stage, pending w !! t = Some (mkTask img stage))
  /\ t < nextTask w.

Definition is_load_call (e : Effect) : bool :=
  match e with Call_posenet_load _ _ => true | _ => false end.

(** [setIsLoading(true)] is the first statement of [estimatePose] and
    occurs nowhere else: it marks the calls of [estimatePose]. *)
Definition is_estimatePose_entry (e : Effect) : bool :=
  match e with Call_setIsLoading true => true | _ => false end.

(** The call suspended as task [t] is in flight and the flag is up. *)
Definition loading_for (t : nat) (w : World) : Prop :=
  isLoading (component w) = true /\ is_Some (pending w !! t) /\ t < nextTask w.

(** Effects other than a call of [net.estimateSinglePose]. *)
Definition not_estimate_call (e : Effect) : bool :=
  match e with Call_estimateSinglePose _ _ _ => false | _ => true end.

(** Effects that neither enter [estimatePose] nor call the model. *)
Definition neutral (e : Effect) : bool :=
  match e with
  | Call_setIsLoading true | Call_posenet_load _ _ | Call_estimateSinglePose _ _ _ => false
  | _ => true
  end.

(** In a trace, every call of [net.estimateSinglePose] by a task comes
    after that task's call of [posenet.load] with the fixed configuration. *)
Definition load_precedes_estimate (tr : list Effect) : Prop :=
  forall pre post t net img,
    tr = pre ++ Call_estimateSinglePose t net img :: post ->
    Call_posenet_load t posenet_config ∈ pre.

(** The invariant of the specification, as it is worded: the canvas shows
    the selected image with the current poses, or there is no pose and an
    inference is in flight. *)
Definition displayed_pose_invariant `{External} (w : World) : Prop :=
  (exists img c,
      images (component w) !! currentImageIndex (component w) = Some img
      /\ canvasRef (component w) = Some c
      /\ shows c img (poses (component w)))
  \/ (poses (component w) = [] /\ isLoading (component w) = true).

(** What holds of the model calls in every reachable world: as many loads
    as calls of [estimatePose], all with the fixed configuration, one for
    every suspended call, and each before its estimate. *)
Definition calls_invariant (w : World) : Prop :=
  length (List.filter is_load_call (trace w)) = nextTask w
  /\ length (List.filter is_estimatePose_entry (trace w)) = nextTask w
  /\ (forall t cfg, Call_posenet_load t cfg ∈ trace w -> cfg = posenet_config)
  /\ (forall t task, pending w !! t = Some task ->
                    Call_posenet_load t posenet_config ∈ trace w)
  /\ load_precedes_estimate (trace w).

(** What holds of the display in every reachable world: suspended calls
    hold an image, and a mounted canvas is blank with no pose, or shows the
    one pose of the pose state over some image. *)
Definition display_invariant `{External} (w : World) : Prop :=
  (forall t task, pending w !! t = Some task -> is_Some (task_img task))
  /\ (forall c, canvasRef (component w) = Some c ->
         (poses (component w) = [] /\ c = blank_canvas)
         \/ (exists img pose, poses (component w) = [pose] /\ shows c img [pose])).

(** ** PreloadedPoseEstimation (post.jsx, lines 202-214) *)

(** The wrapper: its one [useState] cell and the component it renders,
    [<HumanPoseEstimation mode="preloaded" preloadedImage={preloadedImage} />]. *)
Record PreloadedPoseEstimation := mkPreloadedPoseEstimation {
  preloadedImage : option Image;
  child : World;
}.

(** While the wrapper is mounted: an image created by its effect loads, or
    something happens to the child.  The child's prop changes only through
    the wrapper's cell. *)
Inductive WrapperEvent :=
| ImageLoaded (img : Image)  (* img.onload = () => setPreloadedImage(img) *)
| ChildEvent (e : Event).

(** Mounted with no image yet: the child's effect has run on null. *)
Definition wrapper_initial `{External} : PreloadedPoseEstimation :=
  mkPreloadedPoseEstimation None (handle (PreloadedImage None) (initial preloaded)).

(** [setPreloadedImage(img)] re-renders the child with the new prop, and
    the child's effect on [preloadedImage] runs. *)
Definition wrapper_handle `{External} (e : WrapperEvent) (p : PreloadedPoseEstimation)
    : PreloadedPoseEstimation :=
  match e with
  | ImageLoaded img =>
      mkPreloadedPoseEstimation (Some img) (handle (PreloadedImage (Some img)) (child p))
  | ChildEvent e => mkPreloadedPoseEstimation (preloadedImage p) (handle e (child p))
  end.

Definition wrapper_enabled (p : PreloadedPoseEstimation) (e : WrapperEvent) : bool :=
  match e with
  | ImageLoaded _ => true
  | ChildEvent (PreloadedImage _) | ChildEvent Unmounted => false
  | ChildEvent e => enabled (child p) e
  end.

Definition wrapper_run `{External} (es : list WrapperEvent)
    (p : PreloadedPoseEstimation) : PreloadedPoseEstimation :=
  foldl (fun p e => if wrapper_enabled p e then wrapper_handle e p else p) p es.

(** *** Vocabulary of the further properties *)

Definition is_console_error (e : Effect) : bool :=
  match e with Call_console_error _ _ => true | _ => false end.

(** [setError] called with a message. *)
Definition is_error_raised (e : Effect) : bool :=
  match e with Call_setError (Some _) => true | _ => false end.

(** [setIsLoading(false)]: the last statement of [estimatePose]. *)
Definition is_flag_down (e : Effect) : bool :=
  match e with Call_setIsLoading false => true | _ => false end.

(** A [setError] whose argument is null or the one message of the source. *)
Definition error_arg_ok (e : Effect) : bool :=
  match e with
  | Call_setError (Some msg) => bool_decide (msg = error_message)
  | _ => true
  end.

(** What holds of the flag, the error and the suspended calls in every
    reachable world. *)
Definition lifecycle_invariant (w : World) : Prop :=
  (error (component w) = None \/ error (component w) = Some error_message)
  /\ Forall (fun e => error_arg_ok e = true) (trace w)
  /\ length (List.filter is_console_error (trace w))
     = length (List.filter is_error_raised (trace w))
  /\ length (List.filter is_estimatePose_entry (trace w))
     = length (List.filter is_flag_down (trace w)) + size (pending w)
  /\ (isLoading (component w) = true -> pending w <> ∅)
  /\ (forall t, is_Some (pending w !! t) -> t < nextTask w).

(** What holds in preloaded mode: no file is ever read, there is at most
    one image and the index stays at its initial value. *)
Definition preloaded_invariant (w : World) : Prop :=
  mode w = preloaded
  /\ readers w = ∅
  /\ length (images (component w)) <= 1
  /\ currentImageIndex (component w) = 0.

Definition is_stroke (op : CtxOp) : bool :=
  match op with stroke => true | _ => false end.

(** How many lines a context has received. *)
Definition strokes (ctx : Ctx) : nat := length (List.filter is_stroke ctx).

(** What [drawResults] paints over the image for one pose: first the
    markers, then the segments. *)
Definition overlay `{External} (pose : Pose) : list CtxOp :=
  concat (map marker (List.filter (confident 0.5) (keypoints pose)))
  ++ concat (map (fun pr => segment (fst pr) (snd pr))
                 (getAdjacentKeyPoints (keypoints pose) 0.5)).

(** The readers of a batch finishing in the order of [decoded], each
    entry the position of a file and the image decoded from it. *)
Definition decode_events (batch : nat) (decoded : list (nat * Image)) : list Event :=
  (fun d => FileDecoded batch (fst d) (snd d)) <$> decoded.

(** The slots of a batch of [n] files of which those at the positions
    [seen] are decoded, [imgs] being the images by position. *)
Definition slots_after (imgs : list Image) (n : nat) (seen : list nat)
    : list (option Image) :=
  (fun k => if bool_decide (k ∈ seen) then imgs !! k else None) <$> seq 0 n.

(** What holds of the wrapper and its child while mounted. *)
Definition wrapper_invariant (p : PreloadedPoseEstimation) : Prop :=
  mode (child p) = preloaded
  /\ readers (child p) = ∅
  /\ images (component (child p))
     = match preloadedImage p with Some img => [img] | None => [] end
  /\ (preloadedImage p = None -> child p = initial preloaded).

(** An image the component has been given: it is in the argument of some
    call of [setImages]. *)
Definition held (img : Image) (tr : list Effect) : Prop :=
  exists imgs, Call_setImages imgs ∈ tr /\ img ∈ imgs.

(** What holds of the images in every reachable world: the suspended
    calls, the image list and the calls of the model only know images the
    component has been given. *)
Definition asked_invariant (w : World) : Prop :=
  (forall t task, pending w !! t = Some task ->
                  exists img, task_img task = Some img /\ held img (trace w))
  /\ (forall img, img ∈ images (component w) -> held img (trace w))
  /\ (forall t net o, Call_estimateSinglePose t net o ∈ trace w ->
                     exists img, o = Some img /\ held img (trace w)).

(** *** Sample data for the examples *)

(** A stand-in for the platform: neighbours in the keypoint list are
    adjacent when both are confident; the data URL has a fixed payload. *)
Fixpoint sample_adjacent (kps : list Keypoint) (m : float) : list (Keypoint * Keypoint) :=
  match kps with
  | a :: (b :: _) as rest =>
      if confident m a && confident m b
      then (a, b) :: sample_adjacent rest m
      else sample_adjacent rest m
  | _ => []
  end.

Definition sample_external : External :=
  {| getAdjacentKeyPoints := sample_adjacent;
     toDataURL := fun _ type => "data:" +:+ type +:+ ";base64,iVBORw0KGgo=" |}.

Definition imgA : Image := mkImage "data:image/png;base64,AAAA" 640 480.
Definition imgB : Image := mkImage "data:image/png;base64,BBBB" 320 240.

Definition nose : Keypoint := mkKeypoint "nose" (mkPosition 100 50) 0.75.
Definition leftEye : Keypoint := mkKeypoint "leftEye" (mkPosition 110 40) 0.625.
Definition rightEye : Keypoint := mkKeypoint "rightEye" (mkPosition 90 40) 0.5.
Definition leftEar : Keypoint := mkKeypoint "leftEar" (mkPosition 120 45) 0.25.

Definition poseA : Pose := mkPose [nose; leftEye; rightEye; leftEar] 0.5.
Definition poseB : Pose := mkPose [leftEar; nose] 0.375.

Definition fileA : File := mkFile "a.png".
Definition fileB : File := mkFile "b.png".

(** Two files chosen and decoded, the first image estimated and drawn. *)
Definition two_images_shown : World :=
  @run sample_external
       [FilesChosen [fileA; fileB]; FileDecoded 0 0 imgA; FileDecoded 0 1 imgB;
        LoadSettled 0 (Fulfilled 7); EstimateSettled 0 (Fulfilled poseA)]
       (initial upload).

(** Both files decoded: the call for the first image is in flight. *)
Definition both_decoded : World :=
  @run sample_external
       [FilesChosen [fileA; fileB]; FileDecoded 0 0 imgA; FileDecoded 0 1 imgB]
       (initial upload).

(** One file of two decoded. *)
Definition one_of_two_decoded : World :=
  @run sample_external
       [FilesChosen [fileA; fileB]; FileDecoded 0 0 imgA] (initial upload).

(** ** Drawing *)

Section Drawing.
Context `{ext : External}.

Lemma drawKeypoints_markers kps m ctx :
  drawKeypoints kps m ctx
  = ctx ++ concat (map marker (List.filter (confident m) kps)).
Proof.
  unfold drawKeypoints. revert ctx.
  induction kps as [|k kps IH]; intros ctx; simpl.
  - by rewrite app_nil_r.
  - rewrite IH. unfold drawKeypoint, confident.
    destruct (js_gt (score k) m); simpl; [|done].
    by rewrite <- app_assoc.
Qed.

Lemma drawSegments_app (pairs : list (Keypoint * Keypoint)) ctx :
  foldl (fun ctx (keypoints : Keypoint * Keypoint) =>
           drawSegment (toTuple (position (fst keypoints)))
                       (toTuple (position (snd keypoints))) "green" ctx)
        ctx pairs
  = ctx ++ concat (map (fun pr => segment (fst pr) (snd pr)) pairs).
Proof.
  revert ctx. induction pairs as [|[a b] pairs IH]; intros ctx; simpl.
  - by rewrite app_nil_r.
  - rewrite IH. unfold drawSegment, toTuple. simpl.
    by rewrite <- app_assoc.
Qed.

Lemma drawSkeleton_segments kps m ctx :
  drawSkeleton kps m ctx
  = ctx ++ concat (map (fun pr => segment (fst pr) (snd pr))
                       (getAdjacentKeyPoints kps m)).
Proof. unfold drawSkeleton. apply drawSegments_app. Qed.

Lemma filled_markers_app ctx1 ctx2 :
  filled_markers (ctx1 ++ ctx2) = filled_markers ctx1 + filled_markers ctx2.
Proof. unfold filled_markers. by rewrite List.filter_app, length_app. Qed.

Lemma filled_markers_of_markers (ks : list Keypoint) :
  filled_markers (concat (map marker ks)) = length ks.
Proof.
  induction ks as [|k ks IH]; [done|].
  rewrite map_cons, concat_cons, filled_markers_app, IH. done.
Qed.

Lemma filled_markers_of_segments (pairs : list (Keypoint * Keypoint)) :
  filled_markers (concat (map (fun pr => segment (fst pr) (snd pr)) pairs)) = 0.
Proof.
  induction pairs as [|pr pairs IH]; [done|].
  rewrite map_cons, concat_cons, filled_markers_app, IH. done.
Qed.

Lemma paint_results_single img pose canvas :
  paint_results img [pose] canvas
  = mkCanvas (width img) (height img)
      ([drawImage img 0 0]
         ++ concat (map marker (List.filter (confident 0.5) (keypoints pose)))
         ++ concat (map (fun pr => segment (fst pr) (snd pr))
                        (getAdjacentKeyPoints (keypoints pose) 0.5))).
Proof.
  unfold paint_results, with_painted, set_canvas_height, set_canvas_width.
  simpl. rewrite drawSkeleton_segments, drawKeypoints_markers.
  by rewrite <- app_assoc.
Qed.

End Drawing.

(** ** The component *)

Section Component.
Context `{ext : External}.

(** *** Field lemmas of [estimatePose] and its resumptions *)

Lemma estimatePose_pending img w :
  pending (estimatePose img w) = <[nextTask w := mkTask img AwaitLoad]> (pending w).
Proof. done. Qed.

Lemma estimatePose_trace img w :
  trace (estimatePose img w)
  = trace w ++ [Call_setIsLoading true; Call_setError None;
                Call_posenet_load (nextTask w) posenet_config].
Proof. unfold estimatePose. simpl. by rewrite <- !app_assoc. Qed.

Lemma estimatePose_component img w :
  component (estimatePose img w)
  = mkState (images (component w)) (currentImageIndex (component w))
            (poses (component w)) true None (canvasRef (component w)).
Proof. done. Qed.

Lemma handle_LoadSettled_pending task img r w :
  pending w !! task = Some (mkTask img AwaitLoad) ->
  handle (LoadSettled task r) w = estimatePose_loaded task img r w.
Proof. intros Hp. simpl. by rewrite Hp. Qed.

Lemma handle_EstimateSettled_pending task img net r w :
  pending w !! task = Some (mkTask img (AwaitEstimate net)) ->
  handle (EstimateSettled task r) w = estimatePose_estimated task img r w.
Proof. intros Hp. simpl. by rewrite Hp. Qed.

Lemma estimatePose_loaded_pending task img net w :
  pending (estimatePose_loaded task img (Fulfilled net) w) !! task
  = Some (mkTask img (AwaitEstimate net)).
Proof. simpl. apply lookup_insert_eq. Qed.

(** What a fulfilled estimate leaves in the hook cells. *)
Lemma estimatePose_estimated_fulfilled task img pose w :
  component (estimatePose_estimated task img (Fulfilled pose) w)
  = match canvasRef (component w), img with
    | Some c, Some i =>
        mkState (images (component w)) (currentImageIndex (component w))
                [pose] false (error (component w))
                (Some (paint_results i [pose] c))
    | _, _ =>
        mkState (images (component w)) (currentImageIndex (component w))
                [pose] false (Some error_message) (canvasRef (component w))
    end.
Proof.
  destruct w as [m [imgs idx ps ld er [c|]] pd nt rd nb tr];
    destruct img as [i|]; done.
Qed.

Lemma estimatePose_estimated_rejected task img err w :
  component (estimatePose_estimated task img (Rejected err) w)
  = mkState (images (component w)) (currentImageIndex (component w))
            (poses (component w)) false (Some error_message)
            (canvasRef (component w)).
Proof. done. Qed.

Lemma estimatePose_loaded_rejected task img err w :
  component (estimatePose_loaded task img (Rejected err) w)
  = mkState (images (component w)) (currentImageIndex (component w))
            (poses (component w)) false (Some error_message)
            (canvasRef (component w)).
Proof. done. Qed.

Lemma estimatePose_loaded_fulfilled task img net w :
  component (estimatePose_loaded task img (Fulfilled net) w) = component w.
Proof. by destruct w. Qed.

Lemma estimatePose_loaded_fulfilled_trace task img net w :
  trace (estimatePose_loaded task img (Fulfilled net) w)
  = trace w ++ [Call_estimateSinglePose task net img].
Proof. done. Qed.

Lemma estimatePose_loaded_rejected_trace task img err w :
  trace (estimatePose_loaded task img (Rejected err) w)
  = trace w ++ [Call_console_error "Error in estimatePose: " err;
                Call_setError (Some error_message); Call_setIsLoading false].
Proof. simpl. by rewrite <- !app_assoc. Qed.

Lemma estimatePose_estimated_rejected_trace task img err w :
  trace (estimatePose_estimated task img (Rejected err) w)
  = trace w ++ [Call_console_error "Error in estimatePose: " err;
                Call_setError (Some error_message); Call_setIsLoading false].
Proof. simpl. by rewrite <- !app_assoc. Qed.

Lemma estimatePose_estimated_fulfilled_trace task img pose w :
  trace (estimatePose_estimated task img (Fulfilled pose) w)
  = match canvasRef (component w), img with
    | Some _, Some _ =>
        trace w ++ [Call_setPoses [pose]; Call_setIsLoading false]
    | None, _ =>
        trace w ++ [Call_setPoses [pose];
                    Call_console_error "Error in estimatePose: "
                      (TypeError "canvas is null");
                    Call_setError (Some error_message); Call_setIsLoading false]
    | Some _, None =>
        trace w ++ [Call_setPoses [pose];
                    Call_console_error "Error in estimatePose: "
                      (TypeError "img is undefined");
                    Call_setError (Some error_message); Call_setIsLoading false]
    end.
Proof.
  destruct w as [m [imgs idx ps ld er [c|]] pd nt rd nb tr];
    destruct img as [i|]; simpl; by rewrite <- !app_assoc.
Qed.

Lemma estimatePose_estimated_pending task img r w :
  pending (estimatePose_estimated task img r w) = delete task (pending w).
Proof.
  destruct w as [m [imgs idx ps ld er [c|]] pd nt rd nb tr];
    destruct r as [pose|err]; destruct img as [i|]; done.
Qed.

(** The call on its own, outcome by outcome. *)
Lemma estimatePose_alone_LoadRejected img err w :
  estimatePose_alone img (LoadRejected err) w
  = estimatePose_loaded (nextTask w) img (Rejected err) (estimatePose img w).
Proof.
  unfold estimatePose_alone.
  apply handle_LoadSettled_pending.
  rewrite estimatePose_pending. apply lookup_insert_eq.
Qed.

Lemma estimatePose_alone_settled img net (r : Settled Pose) w :
  handle (EstimateSettled (nextTask w) r)
         (handle (LoadSettled (nextTask w) (Fulfilled net)) (estimatePose img w))
  = estimatePose_estimated (nextTask w) img r
      (estimatePose_loaded (nextTask w) img (Fulfilled net) (estimatePose img w)).
Proof.
  rewrite (handle_LoadSettled_pending (nextTask w) img).
  - apply (handle_EstimateSettled_pending _ _ net).
    apply estimatePose_loaded_pending.
  - rewrite estimatePose_pending. apply lookup_insert_eq.
Qed.

Lemma estimatePose_alone_EstimateRejected img net err w :
  estimatePose_alone img (EstimateRejected net err) w
  = estimatePose_estimated (nextTask w) img (Rejected err)
      (estimatePose_loaded (nextTask w) img (Fulfilled net) (estimatePose img w)).
Proof. apply estimatePose_alone_settled. Qed.

Lemma estimatePose_alone_Estimated img net pose w :
  estimatePose_alone img (Estimated net pose) w
  = estimatePose_estimated (nextTask w) img (Fulfilled pose)
      (estimatePose_loaded (nextTask w) img (Fulfilled net) (estimatePose img w)).
Proof. apply estimatePose_alone_settled. Qed.

(** *** Selecting an image *)

(** C5: for an in-range index i, handleImageSelect sets the current index
    to i and calls estimatePose on images[i]; when that call then runs
    with no other event in between and both promises fulfil, the model
    was asked about images[i] and the pose state holds exactly the pose
    it answered, the index still being i. *)
Theorem select_then_success_gives_pose_of_selected
    (w : World) (i : nat) (img : Image) (net : Net) (pose : Pose)
    (Hi : images (component w) !! i = Some img) :
  let task := nextTask w in
  let w1 := handleImageSelect i w in
  let w2 := handle (LoadSettled task (Fulfilled net)) w1 in
  let w3 := handle (EstimateSettled task (Fulfilled pose)) w2 in
  currentImageIndex (component w1) = i
  /\ pending w1 !! task = Some (mkTask (Some img) AwaitLoad)
  /\ trace w2 = trace w ++ [Call_setCurrentImageIndex i; Call_setIsLoading true;
                            Call_setError None;
                            Call_posenet_load task posenet_config;
                            Call_estimateSinglePose task net (Some img)]
  /\ poses (component w3) = [pose]
  /\ currentImageIndex (component w3) = i
  /\ images (component w3) = images (component w)
  /\ pending w3 !! task = None.
Proof.
  intros task w1 w2 w3.
  assert (Hw1 : w1 = estimatePose (Some img) (setCurrentImageIndex i w)).
  { unfold w1, handleImageSelect. by rewrite Hi. }
  assert (Hp1 : pending w1 !! task = Some (mkTask (Some img) AwaitLoad)).
  { rewrite Hw1, estimatePose_pending. apply lookup_insert_eq. }
  assert (Hw2 : w2 = estimatePose_loaded task (Some img) (Fulfilled net) w1).
  { by apply handle_LoadSettled_pending. }
  assert (Hw3 : w3 = estimatePose_estimated task (Some img) (Fulfilled pose) w2).
  { apply (handle_EstimateSettled_pending _ _ net).
    rewrite Hw2. apply estimatePose_loaded_pending. }
  assert (Hp3 : pending w3 !! task = None).
  { rewrite Hw3, estimatePose_estimated_pending. apply lookup_delete_eq. }
  assert (Hc3 : component w3
                = match canvasRef (component w) with
                  | Some c =>
                      mkState (images (component w)) i [pose] false None
                              (Some (paint_results img [pose] c))
                  | None =>
                      mkState (images (component w)) i [pose] false
                              (Some error_message) None
                  end).
  { rewrite Hw3, estimatePose_estimated_fulfilled.
    rewrite Hw2, estimatePose_loaded_fulfilled, Hw1, estimatePose_component.
    simpl. by destruct (canvasRef (component w)). }
  split; [by rewrite Hw1|]. split; [done|].
  split.
  { rewrite Hw2, estimatePose_loaded_fulfilled_trace, Hw1, estimatePose_trace.
    simpl. by rewrite <- !app_assoc. }
  rewrite Hc3. by destruct (canvasRef (component w)).
Qed.

(** *** Export *)

(** C8: with the canvas mounted, handleDownload clicks a link whose
    download name is pose_estimation_ followed by the decimal of the
    current index plus one and .png (and whose href is the PNG data URL
    relabelled as an octet stream); this is what a click on the download
    button does. *)
Theorem download_filename (w : World) (i : nat) (c : Canvas)
    (Hi : currentImageIndex (component w) = i)
    (Hc : canvasRef (component w) = Some c) :
  let href := replace "image/png" "image/octet-stream" (toDataURL c "image/png") in
  let name := "pose_estimation_" +:+ pretty (i + 1) +:+ ".png" in
  handleDownload w = Normal (emit (Call_link_click name href) w)
  /\ trace (handle DownloadClicked w) = trace w ++ [Call_link_click name href].
Proof.
  simpl. unfold handleDownload. rewrite Hc, Hi. done.
Qed.

(** *** The loading flag *)

Lemma loading_for_estimatePose t img w :
  loading_for t w -> loading_for t (estimatePose img w).
Proof.
  intros (Hl & Hp & Hn). repeat split; simpl.
  - rewrite lookup_insert_ne by lia. done.
  - lia.
Qed.

Lemma loading_for_frame t w w' :
  isLoading (component w') = isLoading (component w) ->
  pending w' = pending w -> nextTask w' = nextTask w ->
  loading_for t w -> loading_for t w'.
Proof. unfold loading_for. intros -> -> ->. done. Qed.

Lemma loading_for_Promise_all t batch w :
  loading_for t w -> loading_for t (Promise_all batch w).
Proof.
  intros H. unfold Promise_all, loadImages_then.
  repeat case_match; try done.
  apply loading_for_estimatePose. revert H. by apply loading_for_frame.
Qed.

Lemma loading_for_step t w e :
  completes w e = false -> loading_for t w -> loading_for t (step w e).
Proof.
  intros Hq H. unfold step. destruct (enabled w e); [|done].
  destruct e as [files|batch k img|img|index| |task r|task r|]; simpl in *.
  - apply loading_for_Promise_all. revert H. by apply loading_for_frame.
  - unfold reader_resolved. repeat case_match; try done.
    apply loading_for_Promise_all. revert H. by apply loading_for_frame.
  - destruct img; [|done].
    apply loading_for_estimatePose. revert H. by apply loading_for_frame.
  - apply loading_for_estimatePose. revert H. by apply loading_for_frame.
  - unfold handleDownload. case_match; [|done]. revert H. by apply loading_for_frame.
  - destruct (pending w !! task) as [[img [|net]]|] eqn:Hp; try done.
    destruct r as [net|err]; [|done].
    destruct H as (Hl & Hp' & Hn). repeat split; simpl; try done.
    destruct (decide (task = t)) as [->|Hne].
    + rewrite lookup_insert_eq. done.
    + rewrite lookup_insert_ne; done.
  - destruct (pending w !! task) as [[img [|net]]|] eqn:Hp; done.
  - revert H. by apply loading_for_frame.
Qed.

Lemma loading_for_run t es w :
  quiet w es -> loading_for t w -> loading_for t (run es w).
Proof.
  revert w. induction es as [|e es IH]; intros w Hq H; [done|].
  destruct Hq as [He Hq]. simpl. apply IH; [done|].
  by apply loading_for_step.
Qed.

(** Every way a call can end lowers the flag, last of all. *)
Lemma completes_lowers_flag w e :
  completes w e = true ->
  isLoading (component (handle e w)) = false
  /\ last (trace (handle e w)) = Some (Call_setIsLoading false).
Proof.
  destruct e as [files|batch k img|img|index| |task r|task r|]; simpl; try done.
  - destruct r as [net|err]; [done|].
    destruct (pending w !! task) as [[img [|net]]|]; try done.
    intros _. split; [done|]. rewrite estimatePose_loaded_rejected_trace.
    by rewrite last_app.
  - destruct (pending w !! task) as [[img [|net]]|]; try done.
    intros _. destruct r as [pose|err].
    + rewrite estimatePose_estimated_fulfilled, estimatePose_estimated_fulfilled_trace.
      destruct (canvasRef (component w)), img; by rewrite last_app.
    + rewrite estimatePose_estimated_rejected_trace. by rewrite last_app.
Qed.

Lemma quiet_take n es w : quiet w es -> quiet w (take n es).
Proof.
  revert n w. induction es as [|e es IH]; intros [|n] w Hq; simpl; try done.
  destruct Hq as [He Hq]. split; [done|]. by apply IH.
Qed.

(** C4 (amended): estimatePose raises the loading flag before it calls
    the model; the flag then stays up at every state until a call of
    estimatePose ends, so for a call during which no other call ends it
    is up from the start to the call's own resolution; every way a call
    can end (load rejected, estimate rejected, estimate fulfilled, with
    or without a throw while drawing) lowers the flag as its last act. *)
Theorem loading_flag_between_start_and_resolution
    (img : option Image) (w : World) (es : list Event) (e : Event)
    (Hquiet : quiet (estimatePose img w) es)
    (Hend : completes (run es (estimatePose img w)) e = true) :
  let w1 := estimatePose img w in
  let wk := run es w1 in
  trace w1 = trace w ++ [Call_setIsLoading true; Call_setError None;
                         Call_posenet_load (nextTask w) posenet_config]
  /\ (forall n, isLoading (component (run (take n es) w1)) = true)
  /\ is_Some (pending wk !! nextTask w)
  /\ isLoading (component (handle e wk)) = false
  /\ last (trace (handle e wk)) = Some (Call_setIsLoading false).
Proof.
  intros w1 wk.
  assert (H1 : loading_for (nextTask w) w1).
  { repeat split; simpl; [|lia]. rewrite lookup_insert_eq. done. }
  split; [apply estimatePose_trace|].
  split.
  { intros n. apply (loading_for_run (nextTask w)); [|done]. by apply quiet_take. }
  split.
  { by apply (loading_for_run (nextTask w) es w1 Hquiet). }
  by apply completes_lowers_flag.
Qed.

(** *** Calls of the model *)

Lemma run_reachable m es w : reachable m w -> reachable m (run es w).
Proof.
  revert w. induction es as [|e es IH]; intros w Hw; [done|].
  simpl. apply IH. unfold step.
  destruct (enabled w e) eqn:He; [|done]. by apply reachable_step.
Qed.

Lemma load_precedes_estimate_app tr added :
  load_precedes_estimate tr ->
  (forall pre post t net img,
      added = pre ++ Call_estimateSinglePose t net img :: post ->
      Call_posenet_load t posenet_config ∈ tr ++ pre) ->
  load_precedes_estimate (tr ++ added).
Proof.
  intros Htr Hadd pre post t net img Heq.
  apply app_eq_inv in Heq as [(k & Hl & Hk)|(k & Hl & Hk)].
  - destruct k as [|e k]; simpl in Hk.
    + specialize (Hadd [] post t net img (eq_sym Hk)).
      rewrite app_nil_r in Hl, Hadd. by rewrite <- Hl.
    + injection Hk as <- _. by apply (Htr pre k t net img).
  - rewrite Hl. by apply (Hadd k post t net img).
Qed.

Lemma neutral_filters added :
  Forall (fun e => neutral e = true) added ->
  List.filter is_load_call added = []
  /\ List.filter is_estimatePose_entry added = []
  /\ Forall (fun e => not_estimate_call e = true) added.
Proof.
  induction 1 as [|e added He _ (IH1 & IH2 & IH3)]; [done|].
  simpl. rewrite IH1, IH2.
  destruct e as [| | |[|]| | | | |]; try discriminate He; repeat split; by constructor.
Qed.

Lemma no_estimate_in added pre post t net img :
  Forall (fun e => not_estimate_call e = true) added ->
  added <> pre ++ Call_estimateSinglePose t net img :: post.
Proof.
  intros Hall ->. apply Forall_app in Hall as [_ Hall].
  apply Forall_cons in Hall as [Hall _]. discriminate Hall.
Qed.

Lemma calls_invariant_neutral w w' added :
  calls_invariant w ->
  trace w' = trace w ++ added ->
  Forall (fun e => neutral e = true) added ->
  (forall t task, pending w' !! t = Some task -> is_Some (pending w !! t)) ->
  nextTask w' = nextTask w ->
  calls_invariant w'.
Proof.
  intros (Ha & Hb & Hc & Hd & He) Htr Hn Hp Hnt.
  destruct (neutral_filters added Hn) as (Hf1 & Hf2 & Hf3).
  unfold calls_invariant. rewrite Htr, Hnt, !List.filter_app, Hf1, Hf2, !app_nil_r.
  repeat split; try done.
  - intros t cfg [Hin|Hin]%elem_of_app; [by eapply Hc|].
    rewrite Forall_forall in Hn. apply Hn in Hin. discriminate Hin.
  - intros t task Hpt. apply elem_of_app. left.
    destruct (Hp t task Hpt) as [task' Hpt']. by eapply Hd.
  - apply load_precedes_estimate_app; [done|].
    intros pre post t net img Heq. by destruct (no_estimate_in _ _ _ _ _ _ Hf3 Heq).
Qed.

Lemma calls_invariant_frame w w' :
  trace w' = trace w -> pending w' = pending w -> nextTask w' = nextTask w ->
  calls_invariant w -> calls_invariant w'.
Proof.
  intros Htr Hp Hn H. apply (calls_invariant_neutral w w' []); try done.
  - by rewrite app_nil_r.
  - intros t task. rewrite Hp. eauto.
Qed.

Lemma calls_invariant_estimatePose img w :
  calls_invariant w -> calls_invariant (estimatePose img w).
Proof.
  intros (Ha & Hb & Hc & Hd & He). unfold calls_invariant.
  rewrite estimatePose_trace, estimatePose_pending, !List.filter_app.
  rewrite !length_app, Ha, Hb. simpl.
  repeat split; try lia.
  - intros t cfg [Hin|Hin]%elem_of_app; [by eapply Hc|].
    rewrite !elem_of_cons in Hin.
    destruct Hin as [Hin|[Hin|[Hin|Hin]]]; try discriminate Hin.
    + by injection Hin as _ ->.
    + by apply elem_of_nil in Hin.
  - intros t task Hpt. apply elem_of_app.
    destruct (decide (t = nextTask w)) as [->|Hne].
    + right. rewrite !elem_of_cons. auto.
    + left. rewrite lookup_insert_ne in Hpt by done. by eapply Hd.
  - apply load_precedes_estimate_app; [done|].
    intros pre post t net i Heq. exfalso. revert Heq.
    apply no_estimate_in. by repeat constructor.
Qed.

Lemma calls_invariant_loaded task img net w :
  calls_invariant w ->
  pending w !! task = Some (mkTask img AwaitLoad) ->
  calls_invariant (estimatePose_loaded task img (Fulfilled net) w).
Proof.
  intros (Ha & Hb & Hc & Hd & He) Hp. unfold calls_invariant.
  rewrite estimatePose_loaded_fulfilled_trace, !List.filter_app. simpl.
  rewrite !app_nil_r.
  repeat split; try done.
  - intros t cfg [Hin|Hin]%elem_of_app; [by eapply Hc|].
    apply list_elem_of_singleton in Hin. discriminate Hin.
  - intros t task' Hpt. apply elem_of_app. left.
    destruct (decide (t = task)) as [->|Hne]; [by eapply Hd|].
    rewrite lookup_insert_ne in Hpt by done. by eapply Hd.
  - apply load_precedes_estimate_app; [done|].
    intros pre post t n i Heq.
    symmetry in Heq. apply app_singleton in Heq as [[-> Heq]|[_ Heq]];
      [|discriminate Heq].
    injection Heq as -> _ _ _. rewrite app_nil_r. by eapply Hd.
Qed.

Lemma calls_invariant_setImages imgs w :
  calls_invariant w -> calls_invariant (setImages imgs w).
Proof.
  intros H. apply (calls_invariant_neutral w _ [Call_setImages imgs]);
    try done; try (by repeat constructor); simpl; eauto.
Qed.

Lemma calls_invariant_Promise_all batch w :
  calls_invariant w -> calls_invariant (Promise_all batch w).
Proof.
  intros H. unfold Promise_all, loadImages_then.
  repeat case_match; try done.
  - apply calls_invariant_estimatePose, calls_invariant_setImages.
    revert H. by apply calls_invariant_frame.
  - apply calls_invariant_setImages. revert H. by apply calls_invariant_frame.
Qed.

Lemma calls_invariant_handle e w :
  calls_invariant w -> calls_invariant (handle e w).
Proof.
  intros H.
  destruct e as [files|batch k img|img|index| |task r|task r|]; simpl.
  - apply calls_invariant_Promise_all. revert H. by apply calls_invariant_frame.
  - unfold reader_resolved. repeat case_match; try done.
    apply calls_invariant_Promise_all. revert H. by apply calls_invariant_frame.
  - destruct img; [|done].
    by apply calls_invariant_estimatePose, calls_invariant_setImages.
  - apply calls_invariant_estimatePose.
    apply (calls_invariant_neutral w _ [Call_setCurrentImageIndex index]);
      try done; try (by repeat constructor); simpl; eauto.
  - unfold handleDownload. case_match; [|done]. simpl.
    eapply (calls_invariant_neutral w);
      try done; try (by repeat constructor); simpl; eauto.
  - destruct (pending w !! task) as [[img [|net]]|] eqn:Hp; try done.
    destruct r as [net|err]; [by apply calls_invariant_loaded|].
    eapply (calls_invariant_neutral w);
      [done|apply estimatePose_loaded_rejected_trace| | |done].
    + by repeat constructor.
    + simpl. intros t task' Hpt.
      apply lookup_delete_Some in Hpt as [_ Hpt]. eauto.
  - destruct (pending w !! task) as [[img [|net]]|] eqn:Hp; try done.
    assert (Hpend : forall t task',
               pending (estimatePose_estimated task img r w) !! t = Some task' ->
               is_Some (pending w !! t)).
    { intros t task'. rewrite estimatePose_estimated_pending.
      intros [_ Hpt]%lookup_delete_Some. eauto. }
    assert (Hnext : nextTask (estimatePose_estimated task img r w) = nextTask w).
    { destruct w as [m [imgs idx ps ld er [c|]] pd nt rd nb tr];
        destruct r as [pose|err]; destruct img as [i|]; done. }
    destruct r as [pose|err].
    + pose proof (estimatePose_estimated_fulfilled_trace task img pose w) as Htr.
      destruct (canvasRef (component w)), img;
        (eapply (calls_invariant_neutral w); [done|apply Htr| |done|done]);
        by repeat constructor.
    + eapply (calls_invariant_neutral w);
        [done|apply estimatePose_estimated_rejected_trace| |done|done].
      by repeat constructor.
  - revert H. by apply calls_invariant_frame.
Qed.

Lemma calls_invariant_initial m : calls_invariant (initial m).
Proof.
  repeat split; simpl; try done.
  - intros t cfg Hin. by apply elem_of_nil in Hin.
  - intros pre post t net img Heq. by destruct pre.
Qed.

Lemma calls_invariant_reachable m w : reachable m w -> calls_invariant w.
Proof.
  induction 1 as [|w e _ IH _]; [apply calls_invariant_initial|].
  by apply calls_invariant_handle.
Qed.

(** C7: estimatePose calls posenet.load with inputResolution 640 x 480
    and scale 0.5 as soon as it is entered, and when that load has
    fulfilled it requests the single pose estimate, from the model just
    loaded and for the image it was called with: a call whose load fulfils
    makes exactly these calls, in this order.  Over any run of the
    component every load has that configuration, there are exactly as
    many loads as calls of estimatePose (nothing is cached), a task's call
    of estimateSinglePose comes after its own load, and every call still
    waiting for its load requests its estimate as soon as the load
    fulfils; a load that rejects is followed by no request. *)
Theorem every_call_loads_the_model_first (m : Mode) (es : list Event) :
  let tr := trace (run es (initial m)) in
  (forall img w,
      trace (estimatePose img w)
      = trace w ++ [Call_setIsLoading true; Call_setError None;
                    Call_posenet_load (nextTask w)
                      (mkModelConfig (mkInputResolution 640 480) 0.5)])
  /\ (forall img net w,
        trace (handle (LoadSettled (nextTask w) (Fulfilled net)) (estimatePose img w))
        = trace w ++ [Call_setIsLoading true; Call_setError None;
                      Call_posenet_load (nextTask w)
                        (mkModelConfig (mkInputResolution 640 480) 0.5);
                      Call_estimateSinglePose (nextTask w) net img])
  /\ (forall t cfg, Call_posenet_load t cfg ∈ tr ->
                   cfg = mkModelConfig (mkInputResolution 640 480) 0.5)
  /\ length (List.filter is_load_call tr)
     = length (List.filter is_estimatePose_entry tr)
  /\ (forall pre post t net img,
        tr = pre ++ Call_estimateSinglePose t net img :: post ->
        Call_posenet_load t (mkModelConfig (mkInputResolution 640 480) 0.5) ∈ pre)
  /\ (forall t img,
        pending (run es (initial m)) !! t = Some (mkTask img AwaitLoad) ->
        Call_posenet_load t (mkModelConfig (mkInputResolution 640 480) 0.5) ∈ tr
        /\ (forall net,
              trace (handle (LoadSettled t (Fulfilled net)) (run es (initial m)))
              = tr ++ [Call_estimateSinglePose t net img])
        /\ (forall err t' net' img',
              Call_estimateSinglePose t' net' img'
              ∈ trace (handle (LoadSettled t (Rejected err)) (run es (initial m))) ->
              Call_estimateSinglePose t' net' img' ∈ tr)).
Proof.
  intros tr.
  destruct (calls_invariant_reachable m (run es (initial m)))
    as (Ha & Hb & Hc & Hd & He).
  { apply run_reachable. constructor. }
  split; [apply estimatePose_trace|].
  split.
  { intros img net w.
    rewrite (handle_LoadSettled_pending (nextTask w) img).
    - rewrite estimatePose_loaded_fulfilled_trace, estimatePose_trace.
      by rewrite <- app_assoc.
    - rewrite estimatePose_pending. apply lookup_insert_eq. }
  split; [apply Hc|].
  split; [unfold tr; by rewrite Ha, Hb|].
  split; [apply He|].
  intros t img Hp. split; [by eapply Hd|]. split.
  - intros net. by rewrite (handle_LoadSettled_pending t img).
  - intros err t' net' img'.
    rewrite (handle_LoadSettled_pending t img) by done.
    rewrite estimatePose_loaded_rejected_trace.
    intros [Hin|Hin]%elem_of_app; [done|].
    rewrite !elem_of_cons in Hin.
    destruct Hin as [Hin|[Hin|[Hin|Hin]]]; try discriminate Hin.
    by apply elem_of_nil in Hin.
Qed.

(** *** What the canvas shows *)

Lemma shows_paint_results img ps c : shows (paint_results img ps c) img ps.
Proof. by exists c. Qed.

Lemma display_invariant_frame w w' :
  poses (component w') = poses (component w) ->
  canvasRef (component w') = canvasRef (component w) ->
  pending w' = pending w ->
  display_invariant w -> display_invariant w'.
Proof. unfold display_invariant. intros -> -> ->. done. Qed.

Lemma display_invariant_estimatePose img w :
  display_invariant w -> display_invariant (estimatePose (Some img) w).
Proof.
  intros [Hp Hc]. split; [|done].
  intros t task. rewrite estimatePose_pending.
  destruct (decide (t = nextTask w)) as [->|Hne].
  - rewrite lookup_insert_eq. intros [= <-]. simpl. eauto.
  - rewrite lookup_insert_ne by done. apply Hp.
Qed.

Lemma display_invariant_Promise_all batch w :
  display_invariant w -> display_invariant (Promise_all batch w).
Proof.
  intros H. unfold Promise_all, loadImages_then.
  destruct (readers w !! batch) as [slots|]; [|done].
  destruct (mapM id slots) as [loadedImages|]; [|done].
  destruct (bool_decide (0 < length loadedImages)) eqn:Hlen.
  - apply bool_decide_eq_true in Hlen.
    destruct (lookup_lt_is_Some_2 loadedImages 0 Hlen) as [first ->].
    apply display_invariant_estimatePose. revert H.
    by apply display_invariant_frame.
  - revert H. by apply display_invariant_frame.
Qed.

Lemma display_invariant_handle e w :
  enabled w e = true -> display_invariant w -> display_invariant (handle e w).
Proof.
  intros Hen H.
  destruct e as [files|batch k img|img|index| |task r|task r|]; simpl.
  - apply display_invariant_Promise_all. revert H.
    by apply display_invariant_frame.
  - unfold reader_resolved.
    destruct (readers w !! batch) as [slots|]; [|done].
    destruct (slots !! k) as [[|]|]; try done.
    apply display_invariant_Promise_all. revert H.
    by apply display_invariant_frame.
  - destruct img as [img|]; [|done].
    apply display_invariant_estimatePose. revert H.
    by apply display_invariant_frame.
  - simpl in Hen. apply andb_prop in Hen as [_ Hi].
    apply bool_decide_eq_true in Hi.
    unfold handleImageSelect.
    destruct (lookup_lt_is_Some_2 _ _ Hi) as [img ->].
    apply display_invariant_estimatePose. revert H.
    by apply display_invariant_frame.
  - unfold handleDownload. destruct (canvasRef (component w)); [|done].
    revert H. by apply display_invariant_frame.
  - destruct (pending w !! task) as [[img [|net]]|] eqn:Hp; try done.
    destruct H as [Hpend Hc]. destruct r as [net|err].
    + split; [|by rewrite estimatePose_loaded_fulfilled].
      intros t task'. simpl.
      destruct (decide (t = task)) as [->|Hne].
      * rewrite lookup_insert_eq. intros [= <-]. apply (Hpend _ _ Hp).
      * rewrite lookup_insert_ne by done. apply Hpend.
    + split; [|by rewrite estimatePose_loaded_rejected].
      intros t task'. simpl. intros [_ Hpt]%lookup_delete_Some. by eapply Hpend.
  - destruct (pending w !! task) as [[img [|net]]|] eqn:Hp; try done.
    destruct H as [Hpend Hc]. split.
    { intros t task'. rewrite estimatePose_estimated_pending.
      intros [_ Hpt]%lookup_delete_Some. by eapply Hpend. }
    destruct (Hpend _ _ Hp) as [i Himg]. simpl in Himg. subst img.
    destruct r as [pose|err].
    + rewrite estimatePose_estimated_fulfilled.
      destruct (canvasRef (component w)) as [c|]; [|done].
      simpl. intros c' [= <-]. right. exists i, pose. split; [done|].
      apply shows_paint_results.
    + by rewrite estimatePose_estimated_rejected.
  - split; [apply H|]. done.
Qed.

Lemma display_invariant_reachable m w : reachable m w -> display_invariant w.
Proof.
  induction 1 as [|w e _ IH He].
  - split; [done|]. simpl. intros c [= <-]. by left.
  - by apply display_invariant_handle.
Qed.

(** C2 (amended): at every state the component reaches with the canvas
    mounted (the blank state it starts in included), the canvas shows
    exactly the pose held in the pose state, drawn over an image, or it is
    blank and the pose state is empty.  Selecting an image leaves that
    pose and canvas as they are while the new inference is in flight; the
    displayed pose is that of the selected image once the inference
    started by the selection has fulfilled with no other event in
    between. *)
Theorem displayed_pose_is_the_pose_state
    (m : Mode) (es : list Event) (c : Canvas)
    (Hc : canvasRef (component (run es (initial m))) = Some c) :
  let w := run es (initial m) in
  ((poses (component w) = [] /\ c = blank_canvas)
   \/ (exists shown pose0, poses (component w) = [pose0] /\ shows c shown [pose0]))
  /\ (forall (i : nat) (img : Image) (net : Net) (pose : Pose),
        images (component w) !! i = Some img ->
        let w1 := handleImageSelect i w in
        let w2 := handle (LoadSettled (nextTask w) (Fulfilled net)) w1 in
        let w3 := handle (EstimateSettled (nextTask w) (Fulfilled pose)) w2 in
        (poses (component w1) = poses (component w)
         /\ canvasRef (component w1) = Some c
         /\ isLoading (component w1) = true)
        /\ (images (component w3) !! currentImageIndex (component w3) = Some img
            /\ poses (component w3) = [pose]
            /\ canvasRef (component w3) = Some (paint_results img [pose] c)
            /\ displayed_pose_invariant w3)).
Proof.
  intros w.
  assert (Hr : reachable m w).
  { apply run_reachable. constructor. }
  split; [by apply (display_invariant_reachable m w Hr)|].
  intros i img net pose Hi w1 w2 w3.
  assert (Hw1 : w1 = estimatePose (Some img) (setCurrentImageIndex i w)).
  { unfold w1, handleImageSelect. by rewrite Hi. }
  split; [by rewrite Hw1|].
  assert (Hw2 : w2 = estimatePose_loaded (nextTask w) (Some img) (Fulfilled net) w1).
  { apply handle_LoadSettled_pending.
    rewrite Hw1, estimatePose_pending. apply lookup_insert_eq. }
  assert (Hw3 : w3 = estimatePose_estimated (nextTask w) (Some img) (Fulfilled pose) w2).
  { apply (handle_EstimateSettled_pending _ _ net).
    rewrite Hw2. apply estimatePose_loaded_pending. }
  assert (Hc3 : component w3
                = mkState (images (component w)) i [pose] false None
                          (Some (paint_results img [pose] c))).
  { rewrite Hw3, estimatePose_estimated_fulfilled.
    rewrite Hw2, estimatePose_loaded_fulfilled, Hw1, estimatePose_component.
    simpl. fold w in Hc. by rewrite Hc. }
  unfold displayed_pose_invariant. rewrite Hc3. simpl.
  repeat split; try done.
  left. exists img, (paint_results img [pose] c). repeat split; try done.
  apply shows_paint_results.
Qed.

(** *** Calls that fail *)

Lemma unfailed_call_estimatePose t img img' w :
  unfailed_call t img w -> unfailed_call t img (estimatePose img' w).
Proof.
  intros (He & [stage Hp] & Hn). repeat split; simpl.
  - exists stage. by rewrite lookup_insert_ne by lia.
  - lia.
Qed.

Lemma unfailed_call_frame t img w w' :
  error (component w') = error (component w) ->
  pending w' = pending w -> nextTask w' = nextTask w ->
  unfailed_call t img w -> unfailed_call t img w'.
Proof. unfold unfailed_call. intros -> -> ->. done. Qed.

Lemma unfailed_call_Promise_all t img batch w :
  unfailed_call t img w -> unfailed_call t img (Promise_all batch w).
Proof.
  intros H. unfold Promise_all, loadImages_then.
  repeat case_match; try done.
  apply unfailed_call_estimatePose. revert H. by apply unfailed_call_frame.
Qed.

(** As long as no call ends, no error is set and the call stays in flight
    with the image it was given. *)
Lemma unfailed_call_step t img w e :
  completes w e = false -> unfailed_call t img w -> unfailed_call t img (step w e).
Proof.
  intros Hq H. unfold step. destruct (enabled w e); [|done].
  destruct e as [files|batch k i|i|index| |task r|task r|]; simpl in *.
  - apply unfailed_call_Promise_all. revert H. by apply unfailed_call_frame.
  - unfold reader_resolved. repeat case_match; try done.
    apply unfailed_call_Promise_all. revert H. by apply unfailed_call_frame.
  - destruct i; [|done].
    apply unfailed_call_estimatePose. revert H. by apply unfailed_call_frame.
  - apply unfailed_call_estimatePose. revert H. by apply unfailed_call_frame.
  - unfold handleDownload. case_match; [|done]. revert H. by apply unfailed_call_frame.
  - destruct (pending w !! task) as [[i [|net]]|] eqn:Hp; try done.
    destruct r as [net|err]; [|done].
    destruct H as (He & [stage Hp'] & Hn). repeat split; simpl; try done.
    destruct (decide (task = t)) as [->|Hne].
    + rewrite lookup_insert_eq. rewrite Hp in Hp'. injection Hp' as -> _. eauto.
    + rewrite lookup_insert_ne by done. eauto.
  - destruct (pending w !! task) as [[i [|net]]|] eqn:Hp; done.
  - revert H. by apply unfailed_call_frame.
Qed.

Lemma unfailed_call_run t img es w :
  quiet w es -> unfailed_call t img w -> unfailed_call t img (run es w).
Proof.
  revert w. induction es as [|e es IH]; intros w Hq H; [done|].
  destruct Hq as [He Hq]. simpl. apply IH; [done|].
  by apply unfailed_call_step.
Qed.

(** C1 (amended): take a call of estimatePose during which no other call
    ends, and whose result arrives while the canvas is mounted.  The
    error state is null at every state while the call is in flight, and
    after the call it is the generic message exactly when the try block
    throws: the model load rejects, the inference call rejects, or both
    fulfil and drawResults throws because the image is undefined; it is
    null exactly when both promises fulfil for an image that is there.
    The call has then ended. *)
Theorem error_set_iff_try_block_throws
    (img : option Image) (w : World) (es : list Event) (e : Event) (c : Canvas)
    (Hquiet : quiet (estimatePose img w) es)
    (Hc : canvasRef (component (run es (estimatePose img w))) = Some c)
    (Hsettles : settles (nextTask w) e = true)
    (Hend : completes (run es (estimatePose img w)) e = true) :
  let wk := run es (estimatePose img w) in
  let w' := handle e wk in
  (forall n, error (component (run (take n es) (estimatePose img w))) = None)
  /\ (error (component w') = Some error_message <->
        (exists err, e = LoadSettled (nextTask w) (Rejected err))
        \/ (exists err, e = EstimateSettled (nextTask w) (Rejected err))
        \/ (exists pose, e = EstimateSettled (nextTask w) (Fulfilled pose)
                         /\ img = None))
  /\ (error (component w') = None <->
        exists pose i, e = EstimateSettled (nextTask w) (Fulfilled pose)
                       /\ img = Some i)
  /\ (error (component w') = Some error_message <-> try_block_throws wk e = true)
  /\ pending w' !! nextTask w = None.
Proof.
  intros wk w'.
  assert (H1 : unfailed_call (nextTask w) img (estimatePose img w)).
  { repeat split; simpl; [|lia]. exists AwaitLoad. apply lookup_insert_eq. }
  destruct (unfailed_call_run _ _ es _ Hquiet H1) as (Herr & [stage Hp] & _).
  fold wk in Herr, Hp, Hc, Hend.
  split.
  { intros n. by apply (unfailed_call_run (nextTask w) img); [apply quiet_take|]. }
  destruct e as [files|batch k i|i|index| |task r|task r|]; simpl in Hsettles;
    try done; apply bool_decide_eq_true in Hsettles; subst task.
  - destruct r as [net|err]; [done|].
    simpl in Hend. rewrite Hp in Hend. destruct stage as [|net]; [|done].
    unfold w'. rewrite (handle_LoadSettled_pending _ img) by done.
    rewrite estimatePose_loaded_rejected. simpl.
    split; [|split; [|split]].
    + split; [eauto|done].
    + split; [done|]. intros (pose & i & Heq & _). discriminate Heq.
    + by rewrite Hp.
    + apply lookup_delete_eq.
  - simpl in Hend. rewrite Hp in Hend. destruct stage as [|net]; [done|].
    unfold w'. rewrite (handle_EstimateSettled_pending _ img net) by done.
    split; [|split; [|split]];
      [| | |rewrite estimatePose_estimated_pending; apply lookup_delete_eq];
      [| |cbn [try_block_throws]; rewrite Hp;
           destruct r as [pose|err];
           [rewrite estimatePose_estimated_fulfilled; unfold drawResults;
            simpl; rewrite Hc; destruct img as [i|]; simpl;
            [by rewrite Herr|done]
           |by rewrite estimatePose_estimated_rejected]].
    + destruct r as [pose|err].
      * rewrite estimatePose_estimated_fulfilled, Hc.
        destruct img as [i|]; simpl.
        -- rewrite Herr. split; [done|].
           intros [[err Heq]|[[err Heq]|(p & _ & Heq)]]; discriminate Heq.
        -- split; [eauto 6|done].
      * rewrite estimatePose_estimated_rejected. simpl. split; [eauto|done].
    + destruct r as [pose|err].
      * rewrite estimatePose_estimated_fulfilled, Hc.
        destruct img as [i|]; simpl.
        -- rewrite Herr. split; [eauto|done].
        -- split; [done|]. intros (p & i & _ & Heq). discriminate Heq.
      * rewrite estimatePose_estimated_rejected. simpl.
        split; [done|]. intros (p & i & Heq & _). discriminate Heq.
Qed.




Lemma Promise_all_trace batch w :
  exists added, trace (Promise_all batch w) = trace w ++ added
                /\ Forall (fun ef => is_console_error ef = false) added.
Proof.
  unfold Promise_all, loadImages_then. repeat case_match.
  - eexists. rewrite estimatePose_trace. simpl. rewrite <- app_assoc.
    split; [done|]. by repeat constructor.
  - eexists. split; [done|]. by repeat constructor.
  - exists []. by rewrite app_nil_r.
  - exists []. by rewrite app_nil_r.
Qed.

(** What an event appends to the trace: the catch block's message is in it
    when the try block throws, and nowhere otherwise. *)
Lemma handle_trace_catch e w :
  exists added,
    trace (handle e w) = trace w ++ added
    /\ if try_block_throws w e
       then exists err, Call_console_error "Error in estimatePose: " err ∈ added
       else Forall (fun ef => is_console_error ef = false) added.
Proof.
  destruct e as [files|batch k i|i|index| |task r|task r|]; cbn [handle try_block_throws].
  - unfold loadImages.
    match goal with
    | |- context [Promise_all ?b ?v] =>
        destruct (Promise_all_trace b v) as (added & Htr & Hadded)
    end.
    exists added. by rewrite Htr.
  - unfold reader_resolved. repeat case_match;
      try (exists []; by rewrite app_nil_r).
    match goal with
    | |- context [Promise_all ?b ?v] =>
        destruct (Promise_all_trace b v) as (added & Htr & Hadded)
    end.
    exists added. by rewrite Htr.
  - destruct i as [i|]; [|exists []; by rewrite app_nil_r].
    eexists. unfold preloadedImage_effect. rewrite estimatePose_trace. simpl.
    rewrite <- app_assoc. split; [done|]. by repeat constructor.
  - eexists. unfold handleImageSelect. rewrite estimatePose_trace. simpl.
    rewrite <- app_assoc. split; [done|]. by repeat constructor.
  - unfold handleDownload. case_match; [|exists []; by rewrite app_nil_r].
    eexists. split; [done|]. by repeat constructor.
  - destruct (pending w !! task) as [[img [|net]]|];
      try (exists []; rewrite app_nil_r; by destruct r).
    destruct r as [net|err].
    + eexists. split; [apply estimatePose_loaded_fulfilled_trace|].
      by repeat constructor.
    + eexists. split; [apply estimatePose_loaded_rejected_trace|].
      exists err. apply list_elem_of_here.
  - destruct (pending w !! task) as [[img [|net]]|];
      try (exists []; by rewrite app_nil_r).
    destruct r as [pose|err].
    + rewrite estimatePose_estimated_fulfilled_trace. unfold drawResults. simpl.
      destruct (canvasRef (component w)) as [c|]; [destruct img as [i|]|];
        eexists; (split; [done|]);
        try (by repeat constructor);
        eexists; apply list_elem_of_further, list_elem_of_here.
    + eexists. split; [apply estimatePose_estimated_rejected_trace|].
      exists err. apply list_elem_of_here.
  - exists []. by rewrite app_nil_r.
Qed.

Lemma try_block_throws_iff_catch_runs e w :
  try_block_throws w e = true <->
  exists added err,
    trace (handle e w) = trace w ++ added
    /\ Call_console_error "Error in estimatePose: " err ∈ added.
Proof.
  destruct (handle_trace_catch e w) as (added & Htr & H).
  split.
  - intros Ht. rewrite Ht in H. destruct H as [err Hin]. eauto.
  - intros (added' & err & Htr' & Hin).
    destruct (try_block_throws w e); [done|].
    rewrite Htr in Htr'. apply app_inv_head in Htr'. subst added'.
    rewrite Forall_forall in H. apply H in Hin. discriminate Hin.
Qed.


(** *** Loading files *)

Lemma mapM_pending_slot (slots : list (option Image)) j :
  slots !! j = Some None -> mapM id slots = None.
Proof.
  intros Hj. apply mapM_None, Exists_exists. exists None.
  split; [|done]. by eapply list_elem_of_lookup_2.
Qed.

Lemma Promise_all_pending batch slots j w :
  readers w !! batch = Some slots -> slots !! j = Some None ->
  Promise_all batch w = w.
Proof.
  intros Hb Hj. unfold Promise_all. by rewrite Hb, (mapM_pending_slot slots j).
Qed.

Lemma Promise_all_resolved batch loadedImages first w :
  readers w !! batch = Some (Some <$> loadedImages) ->
  loadedImages !! 0 = Some first ->
  Promise_all batch w
  = estimatePose (Some first) (setImages loadedImages (with_readers (delete batch) w)).
Proof.
  intros Hb Hfirst. unfold Promise_all, loadImages_then.
  rewrite Hb, mapM_fmap_Some by done.
  rewrite bool_decide_eq_true_2, Hfirst; [done|].
  apply lookup_lt_Some in Hfirst. lia.
Qed.

(** C6 (amended): loadImages starts one reader per chosen file and calls
    nothing yet; while any other reader of the batch is still pending, a
    finished decode changes neither the state nor the trace; the decode
    that completes the batch sets the images and calls estimatePose on
    the first of them. *)
Theorem inference_starts_when_every_file_is_decoded
    (w v : World) (files : list File) (batch k : nat)
    (slots : list (option Image)) (img : Image)
    (Hfiles : 0 < length files)
    (Hb : readers v !! batch = Some slots)
    (Hk : slots !! k = Some None) :
  let w0 := loadImages files w in
  let v' := reader_resolved batch k img v in
  (readers w0 !! nextBatch w = Some (replicate (length files) None)
   /\ trace w0 = trace w /\ pending w0 = pending w /\ component w0 = component w)
  /\ ((exists j, j <> k /\ slots !! j = Some None) ->
      trace v' = trace v /\ pending v' = pending v /\ component v' = component v
      /\ readers v' !! batch = Some (<[k := Some img]> slots))
  /\ (forall loadedImages,
        <[k := Some img]> slots = Some <$> loadedImages ->
        exists first,
          loadedImages !! 0 = Some first
          /\ images (component v') = loadedImages
          /\ trace v' = trace v ++ [Call_setImages loadedImages;
                                    Call_setIsLoading true; Call_setError None;
                                    Call_posenet_load (nextTask v) posenet_config]
          /\ pending v' !! nextTask v = Some (mkTask (Some first) AwaitLoad)).
Proof.
  intros w0 v'. split; [|split].
  - unfold w0, loadImages.
    rewrite (Promise_all_pending _ (replicate (length files) None) 0).
    + simpl. by rewrite lookup_insert_eq.
    + simpl. by rewrite lookup_insert_eq.
    + apply lookup_replicate_2. lia.
  - intros (j & Hjk & Hj). unfold v', reader_resolved. rewrite Hb, Hk.
    rewrite (Promise_all_pending _ (<[k := Some img]> slots) j).
    + simpl. by rewrite lookup_insert_eq.
    + simpl. by rewrite lookup_insert_eq.
    + by rewrite list_lookup_insert_ne.
  - intros loadedImages Hall.
    assert (Hlen : k < length loadedImages).
    { apply lookup_lt_Some in Hk.
      rewrite <- (length_fmap Some loadedImages), <- Hall, length_insert. done. }
    destruct (lookup_lt_is_Some_2 loadedImages 0) as [first Hfirst]; [lia|].
    exists first. split; [done|].
    unfold v', reader_resolved. rewrite Hb, Hk.
    rewrite (Promise_all_resolved _ loadedImages first); [| |done].
    + rewrite estimatePose_trace, estimatePose_pending. simpl.
      rewrite lookup_insert_eq, <- app_assoc. done.
    + simpl. by rewrite lookup_insert_eq, Hall.
Qed.

(** *** Rendering *)

(** C3: drawKeypoints with threshold 0.5 appends one filled marker, at
    the keypoint's position, for exactly the keypoints whose score is
    strictly greater than 0.5, in order; and after an inference has
    fulfilled (canvas mounted) the canvas holds as many filled markers as
    the pose has keypoints with score > 0.5. *)
Theorem rendered_keypoints_are_the_confident_ones
    (w : World) (task : nat) (img : Image) (pose : Pose) (c : Canvas)
    (Hc : canvasRef (component w) = Some c) :
  let shown := List.filter (fun k => js_gt (score k) 0.5) (keypoints pose) in
  (forall ctx,
      drawKeypoints (keypoints pose) 0.5 ctx
      = ctx ++ concat (map (fun k =>
                              [beginPath;
                               arc (x (position k)) (y (position k)) 5 0 (2 * Math_PI);
                               set_fillStyle "red"; fill]) shown))
  /\ exists c',
      canvasRef (component (estimatePose_estimated task (Some img) (Fulfilled pose) w))
      = Some c'
      /\ filled_markers (painted c') = length shown.
Proof.
  intros shown. split; [intros ctx; apply drawKeypoints_markers|].
  rewrite estimatePose_estimated_fulfilled, Hc. simpl.
  eexists. split; [done|].
  rewrite paint_results_single. cbn [painted].
  rewrite !filled_markers_app, filled_markers_of_markers, filled_markers_of_segments.
  simpl. unfold shown, confident. lia.
Qed.

(** C10: drawSegment applied to toTuple of two positions moves to the
    first position's (x, y) and draws the line to the second position's
    (x, y): the swap made by toTuple is undone by the destructuring; and
    drawSkeleton draws exactly such a segment for every adjacent pair the
    library returns. *)
Theorem skeleton_segment_endpoints :
  (forall (a b : Position) color ctx,
      drawSegment (toTuple a) (toTuple b) color ctx
      = ctx ++ [beginPath; moveTo (x a) (y a); lineTo (x b) (y b);
                set_lineWidth 2; set_strokeStyle color; stroke])
  /\ (forall kps minConfidence ctx,
        drawSkeleton kps minConfidence ctx
        = ctx ++ concat (map (fun pr : Keypoint * Keypoint =>
                                [beginPath;
                                 moveTo (x (position (fst pr))) (y (position (fst pr)));
                                 lineTo (x (position (snd pr))) (y (position (snd pr)));
                                 set_lineWidth 2; set_strokeStyle "green"; stroke])
                             (getAdjacentKeyPoints kps minConfidence))).
Proof.
  split; [done|]. intros kps m ctx. apply drawSkeleton_segments.
Qed.

End Component.

(** ** Further properties of the component *)

Section Further.
Context `{ext : External}.

(** *** The flag, the error and the calls in flight *)

(** One step that appends [added] and leaves the bookkeeping in balance
    keeps the invariant. *)
Lemma lifecycle_step w w' added :
  trace w' = trace w ++ added ->
  Forall (fun e => error_arg_ok e = true) added ->
  length (List.filter is_console_error added)
  = length (List.filter is_error_raised added) ->
  length (List.filter is_estimatePose_entry added) + size (pending w)
  = length (List.filter is_flag_down added) + size (pending w') ->
  (error (component w') = error (component w)
   \/ error (component w') = None
   \/ error (component w') = Some error_message) ->
  (isLoading (component w') = true -> pending w' <> ∅) ->
  (forall t, is_Some (pending w' !! t) -> t < nextTask w') ->
  lifecycle_invariant w -> lifecycle_invariant w'.
Proof.
  intros Htr Hok Hlog Hbal Herr Hflag Hfresh (He & Ha & Hc & Hb & _ & _).
  unfold lifecycle_invariant.
  rewrite Htr, !List.filter_app, !length_app.
  repeat split; try done.
  - destruct Herr as [->|[->| ->]]; auto.
  - by apply Forall_app.
  - lia.
  - lia.
Qed.

Lemma lifecycle_frame w w' :
  trace w' = trace w -> pending w' = pending w -> nextTask w' = nextTask w ->
  error (component w') = error (component w) ->
  isLoading (component w') = isLoading (component w) ->
  lifecycle_invariant w -> lifecycle_invariant w'.
Proof.
  intros Htr Hp Hn He Hl H.
  apply (lifecycle_step w w' []); try done.
  - by rewrite app_nil_r.
  - simpl. by rewrite Hp.
  - by left.
  - rewrite Hl, Hp. apply H.
  - rewrite Hp, Hn. apply H.
Qed.

Lemma lifecycle_setImages imgs w :
  lifecycle_invariant w -> lifecycle_invariant (setImages imgs w).
Proof.
  intros H. apply (lifecycle_step w _ [Call_setImages imgs]); try done.
  - by repeat constructor.
  - by left.
  - apply H.
  - apply H.
Qed.

Lemma lifecycle_estimatePose img w :
  lifecycle_invariant w -> lifecycle_invariant (estimatePose img w).
Proof.
  intros H. pose proof H as (_ & _ & _ & _ & _ & Hfresh).
  assert (Hnew : pending w !! nextTask w = None).
  { destruct (pending w !! nextTask w) eqn:Hp; [|done].
    assert (nextTask w < nextTask w) by (apply Hfresh; eauto). lia. }
  eapply (lifecycle_step w); [apply estimatePose_trace| | | | | | |done].
  - by repeat constructor.
  - done.
  - rewrite estimatePose_pending, map_size_insert_None by done. simpl. lia.
  - right. by left.
  - intros _. rewrite estimatePose_pending. apply insert_non_empty.
  - intros t. rewrite estimatePose_pending. simpl.
    destruct (decide (t = nextTask w)) as [->|Hne]; [lia|].
    rewrite lookup_insert_ne by done. intros Ht. apply Hfresh in Ht. lia.
Qed.

Lemma lifecycle_Promise_all batch w :
  lifecycle_invariant w -> lifecycle_invariant (Promise_all batch w).
Proof.
  intros H. unfold Promise_all, loadImages_then.
  destruct (readers w !! batch) as [slots|]; [|done].
  destruct (mapM id slots) as [loadedImages|]; [|done].
  destruct (bool_decide (0 < length loadedImages)).
  - apply lifecycle_estimatePose, lifecycle_setImages.
    revert H. by apply lifecycle_frame.
  - apply lifecycle_setImages. revert H. by apply lifecycle_frame.
Qed.

(** The end of a call: the task leaves, the flag goes down. *)
Lemma lifecycle_completion task w w' added :
  is_Some (pending w !! task) ->
  pending w' = delete task (pending w) ->
  nextTask w' = nextTask w ->
  isLoading (component w') = false ->
  trace w' = trace w ++ added ->
  Forall (fun e => error_arg_ok e = true) added ->
  length (List.filter is_console_error added)
  = length (List.filter is_error_raised added) ->
  List.filter is_estimatePose_entry added = [] ->
  length (List.filter is_flag_down added) = 1 ->
  (error (component w') = error (component w)
   \/ error (component w') = Some error_message) ->
  lifecycle_invariant w -> lifecycle_invariant w'.
Proof.
  intros [x Hx] Hp Hn Hl Htr Hok Hlog Hup Hdown Herr H.
  pose proof H as (_ & _ & _ & _ & _ & Hfresh).
  apply (lifecycle_step w w' added); try done.
  - rewrite Hup, Hdown, Hp, map_size_delete_Some by eauto. simpl.
    assert (size (pending w) <> 0).
    { apply map_size_non_empty_iff. intros Hemp. by rewrite Hemp in Hx. }
    lia.
  - destruct Herr as [->| ->]; auto.
  - by rewrite Hl.
  - intros t. rewrite Hp, Hn. intros [y [_ Hy]%lookup_delete_Some].
    apply Hfresh. eauto.
Qed.

Lemma lifecycle_handle e w :
  lifecycle_invariant w -> lifecycle_invariant (handle e w).
Proof.
  intros H.
  destruct e as [files|batch k img|img|index| |task r|task r|]; simpl.
  - apply lifecycle_Promise_all. revert H. by apply lifecycle_frame.
  - unfold reader_resolved.
    destruct (readers w !! batch) as [slots|]; [|done].
    destruct (slots !! k) as [[|]|]; try done.
    apply lifecycle_Promise_all. revert H. by apply lifecycle_frame.
  - destruct img; [|done].
    by apply lifecycle_estimatePose, lifecycle_setImages.
  - apply lifecycle_estimatePose.
    apply (lifecycle_step w _ [Call_setCurrentImageIndex index]); try done.
    + by repeat constructor.
    + by left.
    + apply H.
    + apply H.
  - unfold handleDownload. destruct (canvasRef (component w)); [|done]. simpl.
    eapply (lifecycle_step w); [done| | | | | | |done]; try done.
    + by repeat constructor.
    + by left.
    + apply H.
    + apply H.
  - destruct (pending w !! task) as [[img [|net]]|] eqn:Hp; try done.
    destruct r as [net|err].
    + eapply (lifecycle_step w);
        [apply estimatePose_loaded_fulfilled_trace| | | | | | |done].
      * by repeat constructor.
      * done.
      * simpl. rewrite map_size_insert_Some by eauto. done.
      * left. by rewrite estimatePose_loaded_fulfilled.
      * intros _. simpl. apply insert_non_empty.
      * intros t. simpl. destruct (decide (t = task)) as [->|Hne].
        -- intros _. apply H. eauto.
        -- rewrite lookup_insert_ne by done. apply H.
    + eapply (lifecycle_completion task w);
        [eauto|done|done|done|apply estimatePose_loaded_rejected_trace| | | | | |done];
        try done.
      * by repeat constructor.
      * right. done.
  - destruct (pending w !! task) as [[img [|net]]|] eqn:Hp; try done.
    assert (Hnext : nextTask (estimatePose_estimated task img r w) = nextTask w).
    { destruct w as [m [imgs idx ps ld er [c|]] pd nt rd nb tr];
        destruct r as [pose|err]; destruct img as [i|]; done. }
    assert (Hdown : isLoading (component (estimatePose_estimated task img r w)) = false).
    { destruct r as [pose|err].
      - rewrite estimatePose_estimated_fulfilled.
        by destruct (canvasRef (component w)), img.
      - by rewrite estimatePose_estimated_rejected. }
    destruct r as [pose|err].
    + pose proof (estimatePose_estimated_fulfilled_trace task img pose w) as Htr.
      pose proof (estimatePose_estimated_fulfilled task img pose w) as Hc.
      destruct (canvasRef (component w)), img;
        (eapply (lifecycle_completion task w);
         [eauto|apply estimatePose_estimated_pending|done|done|apply Htr
         | | | | | |done]);
        try done; try (by repeat constructor);
        rewrite Hc; simpl; auto.
    + eapply (lifecycle_completion task w);
        [eauto|apply estimatePose_estimated_pending|done|done
        |apply estimatePose_estimated_rejected_trace| | | | | |done];
        try done.
      * by repeat constructor.
      * right. by rewrite estimatePose_estimated_rejected.
  - revert H. by apply lifecycle_frame.
Qed.

Lemma lifecycle_reachable m w : reachable m w -> lifecycle_invariant w.
Proof.
  induction 1 as [|w e _ IH _]; [|by apply lifecycle_handle].
  repeat split; simpl; try done.
  - by left.
  - intros t [x Hx]. by rewrite lookup_empty in Hx.
Qed.

(** X1: over any run of the component the error state is null or the one
    message of the source, setError is never called with anything else,
    and console.error has been called exactly as many times as setError
    with a message: every surfaced error was logged and every logged
    error surfaced. *)
Theorem error_is_null_or_the_message (m : Mode) (es : list Event) :
  let w := run es (initial m) in
  (error (component w) = None \/ error (component w) = Some error_message)
  /\ (forall e, Call_setError e ∈ trace w -> e = None \/ e = Some error_message)
  /\ length (List.filter is_console_error (trace w))
     = length (List.filter is_error_raised (trace w)).
Proof.
  intros w.
  destruct (lifecycle_reachable m w) as (He & Ha & Hc & _).
  { apply run_reachable. constructor. }
  split; [done|]. split; [|done].
  intros e Hin. rewrite Forall_forall in Ha. specialize (Ha _ Hin).
  destruct e as [msg|]; [|by left]. right. simpl in Ha.
  apply bool_decide_eq_true in Ha. by rewrite Ha.
Qed.

(** X2: whenever the loading flag is up, a call of estimatePose is
    suspended: the indicator is never shown with nothing in flight. *)
Theorem loading_flag_implies_call_in_flight (m : Mode) (es : list Event)
    (Hup : isLoading (component (run es (initial m))) = true) :
  exists task img stage,
    pending (run es (initial m)) !! task = Some (mkTask img stage)
    /\ task < nextTask (run es (initial m)).
Proof.
  destruct (lifecycle_reachable m (run es (initial m)))
    as (_ & _ & _ & _ & Hflag & Hfresh).
  { apply run_reachable. constructor. }
  destruct (map_choose _ (Hflag Hup)) as (task & [img stage] & Ht).
  exists task, img, stage. split; [done|]. apply Hfresh. eauto.
Qed.

(** X3: over any run, the calls of setIsLoading(true) are as many as the
    calls of setIsLoading(false) plus the calls still suspended: every
    call of estimatePose that has ended lowered the flag exactly once. *)
Theorem flag_calls_balance (m : Mode) (es : list Event) :
  let w := run es (initial m) in
  length (List.filter is_estimatePose_entry (trace w))
  = length (List.filter is_flag_down (trace w)) + size (pending w).
Proof.
  intros w.
  destruct (lifecycle_reachable m w) as (_ & _ & _ & Hb & _); [|done].
  apply run_reachable. constructor.
Qed.

(** *** Which events start a call *)

Lemma estimatePose_starts img w :
  nextTask (estimatePose img w) = S (nextTask w)
  /\ error (component (estimatePose img w)) = None
  /\ isLoading (component (estimatePose img w)) = true
  /\ pending (estimatePose img w) !! nextTask w = Some (mkTask img AwaitLoad).
Proof. repeat split. simpl. apply lookup_insert_eq. Qed.

Lemma estimatePose_estimated_nextTask task img r w :
  nextTask (estimatePose_estimated task img r w) = nextTask w.
Proof.
  destruct w as [m [imgs idx ps ld er [c|]] pd nt rd nb tr];
    destruct r as [pose|err]; destruct img as [i|]; done.
Qed.

(** X4: an event starts at most one call of estimatePose.  Only a decoded
    file, a preloaded image and a selection can start one, and then the
    error is cleared, the flag is up and the new call waits for the model
    to load; choosing files, downloading, a settled promise and the
    unmount start none. *)
Theorem event_starts_at_most_one_call (e : Event) (w : World) :
  nextTask (handle e w) = nextTask w
  \/ (nextTask (handle e w) = S (nextTask w)
      /\ error (component (handle e w)) = None
      /\ isLoading (component (handle e w)) = true
      /\ (exists img, pending (handle e w) !! nextTask w = Some (mkTask img AwaitLoad))
      /\ match e with
         | FileDecoded _ _ _ | PreloadedImage (Some _) | ImageSelected _ => True
         | _ => False
         end).
Proof.
  destruct e as [files|batch k img|img|index| |task r|task r|]; simpl.
  - left. unfold loadImages, Promise_all. simpl. rewrite lookup_insert_eq.
    by destruct (length files) as [|n].
  - unfold reader_resolved.
    destruct (readers w !! batch) as [slots|]; [|by left].
    destruct (slots !! k) as [[|]|]; try by left.
    unfold Promise_all, loadImages_then. simpl. rewrite lookup_insert_eq.
    destruct (mapM id _) as [loadedImages|]; [|by left].
    destruct (bool_decide (0 < length loadedImages)); [|by left].
    right. repeat split; try done. eexists. apply lookup_insert_eq.
  - destruct img as [img|]; [|by left].
    right. repeat split; try done. eexists. apply lookup_insert_eq.
  - right. repeat split; try done. eexists. apply lookup_insert_eq.
  - left. unfold handleDownload. by destruct (canvasRef (component w)).
  - left. destruct (pending w !! task) as [[img [|net]]|]; try done.
    by destruct r.
  - left. destruct (pending w !! task) as [[img [|net]]|]; try done.
    apply estimatePose_estimated_nextTask.
  - by left.
Qed.

(** *** Preloaded mode *)

Lemma handle_mode e w : mode (handle e w) = mode w.
Proof.
  destruct e as [files|batch k img|img|index| |task r|task r|]; simpl; try done.
  - unfold loadImages, Promise_all, loadImages_then. simpl.
    repeat case_match; done.
  - unfold reader_resolved, Promise_all, loadImages_then. simpl.
    repeat case_match; done.
  - by destruct img.
  - unfold handleDownload. by destruct (canvasRef (component w)).
  - destruct (pending w !! task) as [[img [|net]]|]; try done. by destruct r.
  - destruct (pending w !! task) as [[img [|net]]|]; try done.
    destruct w as [m [imgs idx ps ld er [c|]] pd nt rd nb tr];
      destruct r as [pose|err]; destruct img as [i|]; done.
Qed.

Lemma estimatePose_estimated_keeps task img r w :
  images (component (estimatePose_estimated task img r w)) = images (component w)
  /\ currentImageIndex (component (estimatePose_estimated task img r w))
     = currentImageIndex (component w)
  /\ readers (estimatePose_estimated task img r w) = readers w.
Proof.
  destruct w as [m [imgs idx ps ld er [c|]] pd nt rd nb tr];
    destruct r as [pose|err]; destruct img as [i|]; done.
Qed.

Lemma preloaded_invariant_handle e w :
  enabled w e = true -> preloaded_invariant w -> preloaded_invariant (handle e w).
Proof.
  intros Hen (Hm & Hr & Hl & Hi).
  split; [by rewrite handle_mode|].
  destruct e as [files|batch k img|img|index| |task r|task r|]; simpl.
  - simpl in Hen. rewrite Hm in Hen.
    apply andb_prop in Hen as [_ Hen]. by apply bool_decide_eq_true in Hen.
  - unfold reader_resolved. rewrite Hr, lookup_empty. done.
  - destruct img as [img|]; [|done]. repeat split; simpl; done.
  - simpl in Hen. apply andb_prop in Hen as [_ Hen].
    apply bool_decide_eq_true in Hen.
    repeat split; simpl; try done. lia.
  - unfold handleDownload. by destruct (canvasRef (component w)).
  - destruct (pending w !! task) as [[img [|net]]|]; try done. by destruct r.
  - destruct (pending w !! task) as [[img [|net]]|]; try done.
    destruct (estimatePose_estimated_keeps task img r w) as (-> & -> & ->). done.
  - done.
Qed.

Lemma preloaded_invariant_reachable w :
  reachable preloaded w -> preloaded_invariant w.
Proof.
  induction 1 as [|w e _ IH He]; [|by apply preloaded_invariant_handle].
  repeat split; simpl; lia.
Qed.

(** X5: in preloaded mode, over any run, no file is read, the component
    holds at most one image, the current index stays 0 and so the
    download is always named pose_estimation_1.png. *)
Theorem preloaded_mode_keeps_one_image (es : list Event) :
  let w := run es (initial preloaded) in
  readers w = ∅
  /\ length (images (component w)) <= 1
  /\ currentImageIndex (component w) = 0
  /\ download_name (currentImageIndex (component w)) = "pose_estimation_1.png".
Proof.
  intros w.
  destruct (preloaded_invariant_reachable w) as (_ & Hr & Hl & Hi).
  { apply run_reachable. constructor. }
  rewrite Hi. done.
Qed.

(** *** Export *)

Lemma list_ascii_of_string_app s t :
  String.list_ascii_of_string (s +:+ t)
  = String.list_ascii_of_string s ++ String.list_ascii_of_string t.
Proof. induction s as [|a s IH]; simpl; [done|]. by rewrite IH. Qed.

Lemma string_app_inj_r s1 s2 t : s1 +:+ t = s2 +:+ t -> s1 = s2.
Proof.
  intros Heq. apply (f_equal String.list_ascii_of_string) in Heq.
  rewrite !list_ascii_of_string_app in Heq. apply app_inv_tail in Heq.
  apply (f_equal String.string_of_list_ascii) in Heq.
  by rewrite !String.string_of_list_ascii_of_string in Heq.
Qed.

(** X6: images at different indices are exported under different file
    names. *)
Theorem download_names_differ (i j : nat) (Hij : i <> j) :
  download_name i <> download_name j.
Proof.
  unfold download_name. intros Heq.
  apply String.app_inj in Heq. apply string_app_inj_r in Heq.
  apply (inj pretty) in Heq. lia.
Qed.

(** X7: when the platform answers toDataURL with a PNG data URL, the link
    clicked by handleDownload carries the same payload relabelled as
    image/octet-stream: only the media type at the front is replaced,
    whatever the payload holds. *)
Theorem download_href_is_octet_stream (w : World) (c : Canvas) (payload : string)
    (Hc : canvasRef (component w) = Some c)
    (Hurl : toDataURL c "image/png" = "data:image/png" +:+ payload) :
  handleDownload w
  = Normal (emit (Call_link_click (download_name (currentImageIndex (component w)))
                                  ("data:image/octet-stream" +:+ payload)) w).
Proof. unfold handleDownload. rewrite Hc, Hurl. done. Qed.

(** *** drawResults on any list of poses *)

Lemma paint_results_overlays img poses canvas :
  paint_results img poses canvas
  = mkCanvas (width img) (height img)
             (drawImage img 0 0 :: concat (map overlay poses)).
Proof.
  unfold paint_results, with_painted, set_canvas_height, set_canvas_width. simpl.
  f_equal.
  assert (Hfold : forall ctx,
             foldl (fun ctx pose =>
                      drawSkeleton (keypoints pose) 0.5
                        (drawKeypoints (keypoints pose) 0.5 ctx)) ctx poses
             = ctx ++ concat (map overlay poses)).
  { induction poses as [|pose poses IH]; intros ctx; simpl.
    - by rewrite app_nil_r.
    - rewrite IH, drawSkeleton_segments, drawKeypoints_markers.
      unfold overlay. by rewrite <- !app_assoc. }
  apply (Hfold [drawImage img 0 0]).
Qed.

Lemma strokes_app ctx1 ctx2 : strokes (ctx1 ++ ctx2) = strokes ctx1 + strokes ctx2.
Proof. unfold strokes. by rewrite List.filter_app, length_app. Qed.

Lemma overlay_counts pose :
  filled_markers (overlay pose)
  = length (List.filter (confident 0.5) (keypoints pose))
  /\ strokes (overlay pose) = length (getAdjacentKeyPoints (keypoints pose) 0.5).
Proof.
  unfold overlay. rewrite filled_markers_app, strokes_app.
  rewrite filled_markers_of_markers, filled_markers_of_segments.
  split; [lia|].
  assert (Hm : forall ks : list Keypoint, strokes (concat (map marker ks)) = 0).
  { induction ks as [|k ks IH]; [done|].
    by rewrite map_cons, concat_cons, strokes_app, IH. }
  assert (Hs : forall prs : list (Keypoint * Keypoint),
             strokes (concat (map (fun pr => segment (fst pr) (snd pr)) prs))
             = length prs).
  { induction prs as [|pr prs IH]; [done|].
    rewrite map_cons, concat_cons, strokes_app, IH. done. }
  by rewrite Hm, Hs.
Qed.

(** X8: for any list of poses drawResults either throws, exactly when the
    canvas ref is null or the image undefined, and then leaves everything
    as it was, or repaints the canvas from scratch: the canvas takes the
    size of the image, whatever was drawn before is gone, the image is
    drawn once at the origin and over it, pose by pose, the markers and
    then the segments; so there are as many filled markers as confident
    keypoints and as many lines as adjacent pairs over all the poses. *)
Theorem drawResults_repaints_or_throws (img : option Image) (poses : list Pose)
    (w : World) :
  match drawResults img poses w with
  | Throw _ w' =>
      w' = w /\ (canvasRef (component w) = None \/ img = None)
  | Normal w' =>
      exists c i painted,
        canvasRef (component w) = Some c /\ img = Some i
        /\ w' = set_canvasRef (Some (mkCanvas (width i) (height i) painted)) w
        /\ painted = drawImage i 0 0 :: concat (map overlay poses)
        /\ filled_markers painted
           = length (List.filter (confident 0.5) (concat (map keypoints poses)))
        /\ strokes painted
           = length (concat (map (fun pose => getAdjacentKeyPoints (keypoints pose) 0.5)
                                 poses))
  end.
Proof.
  unfold drawResults.
  destruct (canvasRef (component w)) as [c|]; [|auto].
  destruct img as [i|]; [|auto].
  exists c, i, (drawImage i 0 0 :: concat (map overlay poses)).
  rewrite paint_results_overlays. repeat split.
  - change (drawImage i 0 0 :: ?l) with ([drawImage i 0 0] ++ l).
    rewrite filled_markers_app. simpl.
    induction poses as [|pose poses IH]; [done|].
    rewrite !map_cons, !concat_cons, filled_markers_app, List.filter_app, length_app.
    rewrite IH. by destruct (overlay_counts pose) as [-> _].
  - change (drawImage i 0 0 :: ?l) with ([drawImage i 0 0] ++ l).
    rewrite strokes_app. simpl.
    induction poses as [|pose poses IH]; [done|].
    rewrite !map_cons, !concat_cons, strokes_app, length_app.
    rewrite IH. by destruct (overlay_counts pose) as [_ ->].
Qed.

(** *** Selecting beyond the images *)

(** X9: handleImageSelect does not check its index.  With an index beyond
    the images it still stores the index and calls estimatePose, on
    undefined; whatever the model then answers, that call ends with the
    error message set, the flag down and the canvas untouched. *)
Theorem select_out_of_range_ends_in_error (w : World) (i : nat) (o : Outcome)
    (Hi : length (images (component w)) <= i) :
  let w1 := handleImageSelect i w in
  let w' := estimatePose_alone None o (setCurrentImageIndex i w) in
  w1 = estimatePose None (setCurrentImageIndex i w)
  /\ currentImageIndex (component w1) = i
  /\ currentImageIndex (component w') = i
  /\ error (component w') = Some error_message
  /\ isLoading (component w') = false
  /\ canvasRef (component w') = canvasRef (component w).
Proof.
  intros w1 w'.
  assert (Hw1 : w1 = estimatePose None (setCurrentImageIndex i w)).
  { unfold w1, handleImageSelect. by rewrite lookup_ge_None_2. }
  split; [done|]. split; [by rewrite Hw1|].
  unfold w'. destruct o as [err|net err|net pose].
  - by rewrite estimatePose_alone_LoadRejected, estimatePose_loaded_rejected.
  - by rewrite estimatePose_alone_EstimateRejected, estimatePose_estimated_rejected.
  - rewrite estimatePose_alone_Estimated, estimatePose_estimated_fulfilled.
    rewrite estimatePose_loaded_fulfilled, estimatePose_component. simpl.
    by destruct (canvasRef (component w)).
Qed.

(** *** Files decoded in any order *)

Lemma slots_after_lookup imgs n seen k :
  k < n ->
  slots_after imgs n seen !! k
  = Some (if bool_decide (k ∈ seen) then imgs !! k else None).
Proof.
  intros Hk. unfold slots_after.
  by rewrite list_lookup_fmap, lookup_seq_lt.
Qed.

Lemma slots_after_length imgs n seen : length (slots_after imgs n seen) = n.
Proof. unfold slots_after. by rewrite length_fmap, length_seq. Qed.

Lemma slots_after_nil imgs n : slots_after imgs n [] = replicate n None.
Proof.
  apply list_eq. intros k. destruct (decide (k < n)) as [Hk|Hk].
  - rewrite slots_after_lookup by done.
    rewrite bool_decide_eq_false_2 by apply not_elem_of_nil.
    symmetry. by apply lookup_replicate_2.
  - rewrite !lookup_ge_None_2; [done| |].
    + rewrite length_replicate. lia.
    + rewrite slots_after_length. lia.
Qed.

Lemma slots_after_insert imgs n seen k img :
  k < n -> imgs !! k = Some img ->
  <[k := Some img]> (slots_after imgs n seen) = slots_after imgs n (k :: seen).
Proof.
  intros Hk Himg. apply list_eq. intros j.
  destruct (decide (j < n)) as [Hj|Hj].
  - rewrite (slots_after_lookup _ _ (k :: seen)) by done.
    destruct (decide (j = k)) as [->|Hne].
    + rewrite list_lookup_insert_eq by (rewrite slots_after_length; lia).
      rewrite bool_decide_eq_true_2 by apply list_elem_of_here. by rewrite Himg.
    + rewrite list_lookup_insert_ne by done.
      rewrite slots_after_lookup by done. f_equal.
      destruct (decide (j ∈ seen)) as [Hin|Hin].
      * rewrite !bool_decide_eq_true_2; [done|by apply list_elem_of_further|done].
      * rewrite !bool_decide_eq_false_2; [done| |done].
        rewrite elem_of_cons. intros [?|?]; done.
  - rewrite !lookup_ge_None_2; [done| |].
    + rewrite slots_after_length. lia.
    + rewrite length_insert, slots_after_length. lia.
Qed.

Lemma slots_after_all imgs n seen :
  length imgs = n -> (forall j, j < n -> j ∈ seen) ->
  slots_after imgs n seen = Some <$> imgs.
Proof.
  intros Hlen Hall. apply list_eq. intros j.
  rewrite list_lookup_fmap.
  destruct (decide (j < n)) as [Hj|Hj].
  - rewrite slots_after_lookup by done.
    rewrite bool_decide_eq_true_2 by auto.
    destruct (lookup_lt_is_Some_2 imgs j) as [x ->]; [lia|]. done.
  - rewrite !lookup_ge_None_2; [done|lia|].
    rewrite slots_after_length. lia.
Qed.

(** Decoding the rest of a batch, whatever the order: nothing happens
    until the last reader, which sets the images and starts the call. *)
Lemma decode_rest batch imgs n first :
  length imgs = n -> imgs !! 0 = Some first ->
  forall todo seen v,
    readers v !! batch = Some (slots_after imgs n seen) ->
    NoDup (seen ++ todo.*1) ->
    seen ++ todo.*1 ≡ₚ seq 0 n ->
    Forall (fun d => imgs !! (fst d) = Some (snd d)) todo ->
    todo <> [] ->
    let v' := run (decode_events batch todo) v in
    component v'
    = mkState imgs (currentImageIndex (component v)) (poses (component v))
              true None (canvasRef (component v))
    /\ trace v' = trace v ++ [Call_setImages imgs; Call_setIsLoading true;
                              Call_setError None;
                              Call_posenet_load (nextTask v) posenet_config]
    /\ pending v' = <[nextTask v := mkTask (Some first) AwaitLoad]> (pending v)
    /\ nextTask v' = S (nextTask v)
    /\ readers v' !! batch = None.
Proof.
  intros Hlen Hfirst todo.
  induction todo as [|[k img] rest IH]; intros seen v Hr Hnd Hperm Himgs Hne;
    [done|].
  apply Forall_cons in Himgs as [Himg Himgs]. simpl in Himg.
  assert (Hmem : forall j, j ∈ seen ++ k :: rest.*1 <-> j < n).
  { intros j. rewrite Hperm, elem_of_seq. lia. }
  assert (Hk : k < n).
  { apply Hmem. rewrite elem_of_app, elem_of_cons. auto. }
  assert (Hkd : k ∉ seen).
  { apply NoDup_app in Hnd as (_ & Hdis & _). intros Hin.
    apply (Hdis k Hin). apply list_elem_of_here. }
  assert (Hnd' : NoDup ((k :: seen) ++ rest.*1)).
  { simpl. by rewrite (Permutation_middle seen (rest.*1) k). }
  assert (Hperm' : (k :: seen) ++ rest.*1 ≡ₚ seq 0 n).
  { simpl. by rewrite (Permutation_middle seen (rest.*1) k). }
  assert (Hstep : step v (FileDecoded batch k img)
                  = Promise_all batch
                      (with_readers (insert batch (slots_after imgs n (k :: seen))) v)).
  { unfold step. simpl. unfold reader_resolved.
    rewrite Hr, slots_after_lookup by done.
    rewrite bool_decide_eq_false_2 by done.
    by rewrite (slots_after_insert imgs n seen k img). }
  cbv zeta.
  change (run (decode_events batch ((k, img) :: rest)) v)
    with (run (decode_events batch rest) (step v (FileDecoded batch k img))).
  rewrite Hstep.
  destruct rest as [|[j img'] rest].
  - rewrite (slots_after_all imgs n (k :: seen)); [|done|].
    + rewrite (Promise_all_resolved _ imgs first); [| |done].
      * simpl. rewrite <- !app_assoc. repeat split; try done.
        apply lookup_delete_eq.
      * simpl. by rewrite lookup_insert_eq.
    + intros j Hj. apply Hmem in Hj. simpl in Hj.
      rewrite elem_of_app, list_elem_of_singleton in Hj.
      rewrite elem_of_cons. destruct Hj; auto.
  - assert (Hj : j < n).
    { apply Hmem. rewrite elem_of_app. right. simpl.
      apply list_elem_of_further, list_elem_of_here. }
    assert (Hjd : j ∉ k :: seen).
    { apply NoDup_app in Hnd' as (_ & Hdis & _). intros Hin.
      apply (Hdis j Hin). simpl. apply list_elem_of_here. }
    rewrite (Promise_all_pending _ (slots_after imgs n (k :: seen)) j).
    + specialize (IH (k :: seen)
                     (with_readers (insert batch (slots_after imgs n (k :: seen))) v)).
      simpl in IH. apply IH; try done.
      by rewrite lookup_insert_eq.
    + simpl. by rewrite lookup_insert_eq.
    + rewrite slots_after_lookup by done. by rewrite bool_decide_eq_false_2.
Qed.

(** X10: when one or more files are chosen and all of them get decoded,
    in whatever order the decodes finish, the images end up in the order
    in which the files were chosen and the call of estimatePose is for the
    image of the first file chosen, not for the first one decoded; the
    current index, the pose and the canvas are left as they were. *)
Theorem images_follow_file_order
    (w : World) (files : list File) (decoded : list (nat * Image))
    (imgs : list Image) (first : Image)
    (Hperm : decoded.*1 ≡ₚ seq 0 (length files))
    (Himgs : Forall (fun d => imgs !! (fst d) = Some (snd d)) decoded)
    (Hlen : length imgs = length files)
    (Hfirst : imgs !! 0 = Some first) :
  let w' := run (decode_events (nextBatch w) decoded) (loadImages files w) in
  images (component w') = imgs
  /\ currentImageIndex (component w') = currentImageIndex (component w)
  /\ poses (component w') = poses (component w)
  /\ canvasRef (component w') = canvasRef (component w)
  /\ trace w' = trace w ++ [Call_setImages imgs; Call_setIsLoading true;
                            Call_setError None;
                            Call_posenet_load (nextTask w) posenet_config]
  /\ pending w' !! nextTask w = Some (mkTask (Some first) AwaitLoad).
Proof.
  assert (Hpos : 0 < length files).
  { rewrite <- Hlen. by apply lookup_lt_Some in Hfirst. }
  assert (Hload : loadImages files w
                  = with_readers (insert (nextBatch w) (replicate (length files) None))
                                 (with_nextBatch (S (nextBatch w)) w)).
  { unfold loadImages.
    apply (Promise_all_pending _ (replicate (length files) None) 0).
    - simpl. by rewrite lookup_insert_eq.
    - apply lookup_replicate_2. lia. }
  assert (Hne : decoded <> []).
  { intros ->. simpl in Hperm. symmetry in Hperm.
    apply Permutation_nil_r in Hperm.
    apply (f_equal length) in Hperm. rewrite length_seq in Hperm. simpl in Hperm. lia. }
  destruct (decode_rest (nextBatch w) imgs (length files) first Hlen Hfirst
              decoded [] (loadImages files w)) as (Hc & Htr & Hp & _); try done.
  - rewrite Hload. simpl. by rewrite lookup_insert_eq, slots_after_nil.
  - simpl. rewrite Hperm. apply NoDup_seq.
  - cbv zeta. rewrite Hc, Htr, Hp, Hload. simpl.
    repeat split; try done. apply lookup_insert_eq.
Qed.

(** X11: choosing no file at all resolves at once: the images are set to
    the empty list, so that the select and the download button go away,
    and no call of estimatePose is made; the index, the pose, the canvas,
    the error and the flag stay as they were. *)
Theorem choosing_no_file_clears_the_images (w : World) :
  let w' := loadImages [] w in
  component w'
  = mkState [] (currentImageIndex (component w)) (poses (component w))
            (isLoading (component w)) (error (component w))
            (canvasRef (component w))
  /\ trace w' = trace w ++ [Call_setImages []]
  /\ pending w' = pending w
  /\ nextTask w' = nextTask w
  /\ readers w' !! nextBatch w = None
  /\ (forall i, enabled w' (ImageSelected i) = false)
  /\ enabled w' DownloadClicked = false.
Proof.
  cbv zeta. unfold loadImages, Promise_all. simpl. rewrite lookup_insert_eq. simpl.
  repeat split.
  - apply lookup_delete_eq.
  - intros i. by apply andb_false_intro2.
  - by apply andb_false_intro1, andb_false_intro2.
Qed.

(** *** No guard against a stale result *)

Lemma select_starts_call i img w :
  images (component w) !! i = Some img ->
  component (handleImageSelect i w)
  = mkState (images (component w)) i (poses (component w)) true None
            (canvasRef (component w))
  /\ pending (handleImageSelect i w)
     = <[nextTask w := mkTask (Some img) AwaitLoad]> (pending w)
  /\ nextTask (handleImageSelect i w) = S (nextTask w).
Proof. intros Hi. unfold handleImageSelect. by rewrite Hi. Qed.

Lemma load_fulfilled_step task img net w :
  pending w !! task = Some (mkTask img AwaitLoad) ->
  component (handle (LoadSettled task (Fulfilled net)) w) = component w
  /\ pending (handle (LoadSettled task (Fulfilled net)) w)
     = <[task := mkTask img (AwaitEstimate net)]> (pending w)
  /\ nextTask (handle (LoadSettled task (Fulfilled net)) w) = nextTask w.
Proof.
  intros Hp. rewrite (handle_LoadSettled_pending _ img) by done.
  by rewrite estimatePose_loaded_fulfilled.
Qed.

Lemma estimate_fulfilled_step task img net pose c w :
  pending w !! task = Some (mkTask (Some img) (AwaitEstimate net)) ->
  canvasRef (component w) = Some c ->
  component (handle (EstimateSettled task (Fulfilled pose)) w)
  = mkState (images (component w)) (currentImageIndex (component w)) [pose]
            false (error (component w)) (Some (paint_results img [pose] c))
  /\ pending (handle (EstimateSettled task (Fulfilled pose)) w)
     = delete task (pending w).
Proof.
  intros Hp Hc. rewrite (handle_EstimateSettled_pending _ (Some img) net) by done.
  rewrite estimatePose_estimated_fulfilled, estimatePose_estimated_pending.
  by rewrite Hc.
Qed.

(** X12: nothing cancels a call that has been overtaken.  Select image i,
    then image j before the first call has resolved; if the call for j
    fulfils first and the call for i after it, the canvas and the pose
    state first show image j and its pose and are then overwritten with
    image i and its pose, while the current index still says j. *)
Theorem stale_result_overwrites_newer_selection
    (w : World) (i j : nat) (imgI imgJ : Image) (netI netJ : Net)
    (poseI poseJ : Pose) (c : Canvas)
    (Hi : images (component w) !! i = Some imgI)
    (Hj : images (component w) !! j = Some imgJ)
    (Hc : canvasRef (component w) = Some c) :
  let t := nextTask w in
  let w2 := handleImageSelect j (handleImageSelect i w) in
  let w4 := handle (LoadSettled (S t) (Fulfilled netJ))
              (handle (LoadSettled t (Fulfilled netI)) w2) in
  let w5 := handle (EstimateSettled (S t) (Fulfilled poseJ)) w4 in
  let w6 := handle (EstimateSettled t (Fulfilled poseI)) w5 in
  (currentImageIndex (component w5) = j
   /\ poses (component w5) = [poseJ]
   /\ canvasRef (component w5) = Some (paint_results imgJ [poseJ] c))
  /\ (currentImageIndex (component w6) = j
      /\ images (component w6) !! j = Some imgJ
      /\ poses (component w6) = [poseI]
      /\ canvasRef (component w6) = Some (paint_results imgI [poseI] c)
      /\ isLoading (component w6) = false
      /\ pending w6 !! t = None /\ pending w6 !! S t = None).
Proof.
  intros t w2 w4 w5 w6.
  destruct (select_starts_call i imgI w Hi) as (Hc1 & Hp1 & Hn1).
  set (w1 := handleImageSelect i w) in *.
  assert (Hj1 : images (component w1) !! j = Some imgJ) by (by rewrite Hc1).
  destruct (select_starts_call j imgJ w1 Hj1) as (Hc2 & Hp2 & Hn2).
  fold w2 in Hc2, Hp2, Hn2. rewrite Hn1 in Hp2. fold t in Hp1, Hp2.
  assert (Hl2 : pending w2 !! t = Some (mkTask (Some imgI) AwaitLoad)).
  { rewrite Hp2, lookup_insert_ne by lia. rewrite Hp1. apply lookup_insert_eq. }
  destruct (load_fulfilled_step t (Some imgI) netI w2 Hl2) as (Hc3 & Hp3 & _).
  set (w3 := handle (LoadSettled t (Fulfilled netI)) w2) in *.
  assert (Hl3 : pending w3 !! S t = Some (mkTask (Some imgJ) AwaitLoad)).
  { rewrite Hp3, lookup_insert_ne by lia. rewrite Hp2. apply lookup_insert_eq. }
  destruct (load_fulfilled_step (S t) (Some imgJ) netJ w3 Hl3) as (Hc4 & Hp4 & _).
  fold w4 in Hc4, Hp4.
  assert (Hcomp4 : component w4
                   = mkState (images (component w)) j (poses (component w)) true None
                             (Some c)).
  { rewrite Hc4, Hc3, Hc2, Hc1. simpl. by rewrite Hc. }
  assert (Hl4 : pending w4 !! S t = Some (mkTask (Some imgJ) (AwaitEstimate netJ))).
  { rewrite Hp4. apply lookup_insert_eq. }
  destruct (estimate_fulfilled_step (S t) imgJ netJ poseJ c w4 Hl4) as (Hc5 & Hp5).
  { by rewrite Hcomp4. }
  fold w5 in Hc5, Hp5. rewrite Hcomp4 in Hc5. simpl in Hc5.
  assert (Hl5 : pending w5 !! t = Some (mkTask (Some imgI) (AwaitEstimate netI))).
  { rewrite Hp5, lookup_delete_ne by lia.
    rewrite Hp4, lookup_insert_ne by lia. rewrite Hp3. apply lookup_insert_eq. }
  destruct (estimate_fulfilled_step t imgI netI poseI
              (paint_results imgJ [poseJ] c) w5 Hl5) as (Hc6 & Hp6).
  { by rewrite Hc5. }
  fold w6 in Hc6, Hp6. rewrite Hc5 in Hc6. simpl in Hc6.
  assert (Hg6 : pending w6 !! t = None).
  { rewrite Hp6. apply lookup_delete_eq. }
  assert (Hg6' : pending w6 !! S t = None).
  { rewrite Hp6, lookup_delete_ne by lia. rewrite Hp5. apply lookup_delete_eq. }
  assert (Hpaint : paint_results imgI [poseI] (paint_results imgJ [poseJ] c)
                   = paint_results imgI [poseI] c).
  { by rewrite !paint_results_overlays. }
  split; [by rewrite Hc5|].
  rewrite Hc6, Hpaint. simpl. by repeat split.
Qed.

(** *** The wrapper around a preloaded image *)

Lemma handle_keeps_images e w :
  match e with
  | FilesChosen _ | FileDecoded _ _ _ | PreloadedImage _ => True
  | _ => images (component (handle e w)) = images (component w)
         /\ readers (handle e w) = readers w
  end.
Proof.
  destruct e as [files|batch k img|img|index| |task r|task r|]; simpl; try done.
  - unfold handleDownload. by destruct (canvasRef (component w)).
  - destruct (pending w !! task) as [[img [|net]]|]; try done. by destruct r.
  - destruct (pending w !! task) as [[img [|net]]|]; try done.
    by destruct (estimatePose_estimated_keeps task img r w) as (-> & _ & ->).
Qed.

Lemma wrapper_invariant_step e p :
  wrapper_enabled p e = true -> wrapper_invariant p ->
  wrapper_invariant (wrapper_handle e p).
Proof.
  intros Hen (Hm & Hr & Hi & Hnone).
  destruct e as [img|e].
  - repeat split; simpl; done.
  - change (wrapper_handle (ChildEvent e) p)
      with (mkPreloadedPoseEstimation (preloadedImage p) (handle e (child p))).
    unfold wrapper_invariant. cbn [child preloadedImage].
    split; [by rewrite handle_mode|].
    destruct (preloadedImage p) as [img|] eqn:Hpre.
    + pose proof (handle_keeps_images e (child p)) as Hk.
      destruct e as [files|batch k i|i|index| |task r|task r|]; simpl in Hen; try done.
      * rewrite Hm in Hen. apply andb_prop in Hen as [_ Hen].
        by apply bool_decide_eq_true in Hen.
      * simpl. unfold reader_resolved. by rewrite Hr, lookup_empty.
      * destruct Hk as [-> ->]. done.
      * destruct Hk as [-> ->]. done.
      * destruct Hk as [-> ->]. done.
    + assert (Hsame : handle e (child p) = child p).
      { pose proof (Hnone eq_refl) as Hinit.
        destruct e as [files|batch k i|i|index| |task r|task r|];
          simpl in Hen; try done; try rewrite Hinit in Hen; rewrite Hinit;
          done. }
      rewrite Hsame. done.
Qed.

Lemma wrapper_invariant_run es p :
  wrapper_invariant p -> wrapper_invariant (wrapper_run es p).
Proof.
  revert p. induction es as [|e es IH]; intros p H; [done|].
  simpl. apply IH. destruct (wrapper_enabled p e) eqn:He; [|done].
  by apply wrapper_invariant_step.
Qed.

(** X13: while PreloadedPoseEstimation is mounted, the component it
    renders is in preloaded mode and holds exactly the image the wrapper
    has loaded, none before the first load: until then it has called
    nothing and changed nothing.  Each loaded image replaces the images by
    that one image and starts one call of estimatePose on it. *)
Theorem wrapper_child_holds_the_loaded_image (es : list WrapperEvent) (img : Image) :
  let p := wrapper_run es wrapper_initial in
  mode (child p) = preloaded
  /\ images (component (child p))
     = match preloadedImage p with Some img => [img] | None => [] end
  /\ (preloadedImage p = None -> child p = initial preloaded)
  /\ (let p' := wrapper_handle (ImageLoaded img) p in
      preloadedImage p' = Some img
      /\ images (component (child p')) = [img]
      /\ pending (child p') !! nextTask (child p) = Some (mkTask (Some img) AwaitLoad)
      /\ nextTask (child p') = S (nextTask (child p))).
Proof.
  intros p.
  destruct (wrapper_invariant_run es wrapper_initial) as (Hm & _ & Hi & Hnone);
    [done|].
  repeat split; try done. simpl. apply lookup_insert_eq.
Qed.

(** *** Which images the model is asked about *)

Lemma held_app img tr added : held img tr -> held img (tr ++ added).
Proof.
  intros (imgs & Hin & Himg). exists imgs. split; [|done].
  apply elem_of_app. by left.
Qed.

Lemma asked_quiet w w' added :
  trace w' = trace w ++ added ->
  Forall (fun e => not_estimate_call e = true) added ->
  images (component w') = images (component w) ->
  (forall t task, pending w' !! t = Some task ->
                  exists task0, pending w !! t = Some task0
                                /\ task_img task0 = task_img task) ->
  asked_invariant w -> asked_invariant w'.
Proof.
  intros Htr Hq Himgs Hpend (Hp & Hi & Ha).
  unfold asked_invariant. rewrite Htr, Himgs. repeat split.
  - intros t task Ht. destruct (Hpend t task Ht) as (task0 & Ht0 & Heq).
    destruct (Hp t task0 Ht0) as (img & Himg & Hh).
    exists img. split; [by rewrite <- Heq|by apply held_app].
  - intros img Hin. by apply held_app, Hi.
  - intros t net o [Hin|Hin]%elem_of_app.
    + destruct (Ha t net o Hin) as (img & -> & Hh).
      exists img. split; [done|by apply held_app].
    + rewrite Forall_forall in Hq. apply Hq in Hin. discriminate Hin.
Qed.

Lemma asked_frame w w' :
  trace w' = trace w -> images (component w') = images (component w) ->
  pending w' = pending w ->
  asked_invariant w -> asked_invariant w'.
Proof.
  intros Htr Hi Hp H. apply (asked_quiet w w' []); try done.
  - by rewrite app_nil_r.
  - intros t task. rewrite Hp. eauto.
Qed.

Lemma asked_setImages imgs w :
  asked_invariant w ->
  asked_invariant (setImages imgs w)
  /\ (forall img, img ∈ imgs -> held img (trace (setImages imgs w))).
Proof.
  intros (Hp & Hi & Ha).
  assert (Hnew : forall img, img ∈ imgs -> held img (trace (setImages imgs w))).
  { intros img Hin. exists imgs. split; [|done]. simpl.
    apply elem_of_app. right. apply list_elem_of_here. }
  split; [|done]. repeat split; simpl.
  - intros t task Ht. destruct (Hp t task Ht) as (img & Himg & Hh).
    exists img. split; [done|]. by apply (held_app img (trace w)).
  - done.
  - intros t net o [Hin|Hin]%elem_of_app.
    + destruct (Ha t net o Hin) as (img & -> & Hh).
      exists img. split; [done|]. by apply (held_app img (trace w)).
    + apply list_elem_of_singleton in Hin. discriminate Hin.
Qed.

Lemma asked_estimatePose img w :
  held img (trace w) -> asked_invariant w ->
  asked_invariant (estimatePose (Some img) w).
Proof.
  intros Hh (Hp & Hi & Ha).
  unfold asked_invariant. rewrite estimatePose_trace, estimatePose_pending.
  repeat split.
  - intros t task. destruct (decide (t = nextTask w)) as [->|Hne].
    + rewrite lookup_insert_eq. intros [= <-]. exists img.
      split; [done|by apply held_app].
    + rewrite lookup_insert_ne by done. intros Ht.
      destruct (Hp t task Ht) as (i & Himg & Hhi).
      exists i. split; [done|by apply held_app].
  - intros i Hin. by apply held_app, Hi.
  - intros t net o [Hin|Hin]%elem_of_app.
    + destruct (Ha t net o Hin) as (i & -> & Hhi).
      exists i. split; [done|by apply held_app].
    + rewrite !elem_of_cons in Hin.
      destruct Hin as [Hin|[Hin|[Hin|Hin]]]; try discriminate Hin.
      by apply elem_of_nil in Hin.
Qed.

Lemma asked_Promise_all batch w :
  asked_invariant w -> asked_invariant (Promise_all batch w).
Proof.
  intros H. unfold Promise_all, loadImages_then.
  destruct (readers w !! batch) as [slots|]; [|done].
  destruct (mapM id slots) as [loadedImages|]; [|done].
  assert (H0 : asked_invariant (with_readers (delete batch) w)).
  { revert H. by apply asked_frame. }
  destruct (asked_setImages loadedImages _ H0) as [H1 Hnew].
  destruct (bool_decide (0 < length loadedImages)) eqn:Hlen; [|done].
  apply bool_decide_eq_true in Hlen.
  destruct (lookup_lt_is_Some_2 loadedImages 0 Hlen) as [first Hfirst].
  rewrite Hfirst. apply asked_estimatePose; [|done].
  apply Hnew. by eapply list_elem_of_lookup_2.
Qed.

Lemma asked_handle e w :
  enabled w e = true -> asked_invariant w -> asked_invariant (handle e w).
Proof.
  intros Hen H.
  destruct e as [files|batch k img|img|index| |task r|task r|]; simpl.
  - apply asked_Promise_all. revert H. by apply asked_frame.
  - unfold reader_resolved.
    destruct (readers w !! batch) as [slots|]; [|done].
    destruct (slots !! k) as [[|]|]; try done.
    apply asked_Promise_all. revert H. by apply asked_frame.
  - destruct img as [img|]; [|done].
    destruct (asked_setImages [img] w H) as [H1 Hnew].
    apply asked_estimatePose; [|done]. apply Hnew, list_elem_of_here.
  - simpl in Hen. apply andb_prop in Hen as [_ Hi].
    apply bool_decide_eq_true in Hi.
    unfold handleImageSelect.
    destruct (lookup_lt_is_Some_2 _ _ Hi) as [img Himg]. rewrite Himg.
    assert (Hh : held img (trace w)).
    { apply H. by eapply list_elem_of_lookup_2. }
    apply asked_estimatePose.
    + by apply (held_app img (trace w)).
    + apply (asked_quiet w _ [Call_setCurrentImageIndex index]); try done.
      * by repeat constructor.
      * simpl. eauto.
  - unfold handleDownload. destruct (canvasRef (component w)); [|done]. simpl.
    eapply (asked_quiet w); try done.
    + by repeat constructor.
    + simpl. eauto.
  - destruct (pending w !! task) as [[img [|net]]|] eqn:Hp; try done.
    destruct r as [net|err].
    + destruct H as (Hpend & Hi & Ha).
      destruct (Hpend _ _ Hp) as (i & Himg & Hh). simpl in Himg. subst img.
      unfold asked_invariant.
      rewrite estimatePose_loaded_fulfilled_trace, estimatePose_loaded_fulfilled.
      repeat split.
      * intros t task'. simpl. destruct (decide (t = task)) as [->|Hne].
        -- rewrite lookup_insert_eq. intros [= <-]. exists i.
           split; [done|by apply held_app].
        -- rewrite lookup_insert_ne by done. intros Ht.
           destruct (Hpend t task' Ht) as (j & Hj & Hhj).
           exists j. split; [done|by apply held_app].
      * intros j Hin. by apply held_app, Hi.
      * intros t n o [Hin|Hin]%elem_of_app.
        -- destruct (Ha t n o Hin) as (j & -> & Hhj).
           exists j. split; [done|by apply held_app].
        -- apply list_elem_of_singleton in Hin. injection Hin as -> -> ->.
           exists i. split; [done|by apply held_app].
    + eapply (asked_quiet w); [apply estimatePose_loaded_rejected_trace| |done| |done].
      * by repeat constructor.
      * simpl. intros t task' [_ Ht]%lookup_delete_Some. eauto.
  - destruct (pending w !! task) as [[img [|net]]|] eqn:Hp; try done.
    assert (Hpend : forall t task',
               pending (estimatePose_estimated task img r w) !! t = Some task' ->
               exists task0, pending w !! t = Some task0
                             /\ task_img task0 = task_img task').
    { intros t task'. rewrite estimatePose_estimated_pending.
      intros [_ Ht]%lookup_delete_Some. eauto. }
    assert (Himgs : images (component (estimatePose_estimated task img r w))
                    = images (component w)).
    { by destruct (estimatePose_estimated_keeps task img r w) as (-> & _). }
    destruct r as [pose|err].
    + pose proof (estimatePose_estimated_fulfilled_trace task img pose w) as Htr.
      destruct (canvasRef (component w)), img;
        (eapply (asked_quiet w); [apply Htr| |done|done|done]);
        by repeat constructor.
    + eapply (asked_quiet w);
        [apply estimatePose_estimated_rejected_trace| |done|done|done].
      by repeat constructor.
  - revert H. by apply asked_frame.
Qed.

Lemma asked_reachable m w : reachable m w -> asked_invariant w.
Proof.
  induction 1 as [|w e _ IH He]; [|by apply asked_handle].
  repeat split; simpl.
  - intros t task Ht. by rewrite lookup_empty in Ht.
  - intros img Hin. by apply elem_of_nil in Hin.
  - intros t net o Hin. by apply elem_of_nil in Hin.
Qed.

(** X14: over any run of the component, the model is only ever asked
    about an image the component has been given through setImages, never
    about undefined. *)
Theorem model_is_only_asked_about_held_images
    (m : Mode) (es : list Event) (t : nat) (net : Net) (o : option Image)
    (Hasked : Call_estimateSinglePose t net o ∈ trace (run es (initial m))) :
  exists img imgs,
    o = Some img
    /\ Call_setImages imgs ∈ trace (run es (initial m))
    /\ img ∈ imgs.
Proof.
  destruct (asked_reachable m (run es (initial m))) as (_ & _ & Ha).
  { apply run_reachable. constructor. }
  destruct (Ha t net o Hasked) as (img & -> & imgs & Hin & Himg).
  by exists img, imgs.
Qed.

End Further.

(** ** Examples on concrete runs *)

#[local] Existing Instance sample_external.

Example download_name_first : download_name 0 = "pose_estimation_1.png".
Proof. reflexivity. Qed.

Example download_name_tenth : download_name 9 = "pose_estimation_10.png".
Proof. reflexivity. Qed.

Example replace_first_occurrence :
  replace "image/png" "image/octet-stream" "data:image/png;base64,image/png"
  = "data:image/octet-stream;base64,image/png".
Proof. reflexivity. Qed.

Example replace_no_occurrence : replace "image/png" "x" "data:," = "data:,".
Proof. reflexivity. Qed.

Example two_images_shown_component :
  component two_images_shown
  = mkState [imgA; imgB] 0 [poseA] false None
            (Some (mkCanvas 640 480
                     ([drawImage imgA 0 0] ++ marker nose ++ marker leftEye
                        ++ segment nose leftEye))).
Proof. vm_compute. reflexivity. Qed.

(** The stale error: call 0 loses its load after call 1 has begun; call 1
    then fulfils both promises and draws, and the message of call 0 is
    still there when call 1 has completed, the canvas mounted all along. *)
Lemma error_set_without_rejection_of_the_call :
  let w := run [ImageSelected 1;
                LoadSettled 0 (Rejected (Rejection "network"));
                LoadSettled 1 (Fulfilled 7)]
               both_decoded in
  let w' := handle (EstimateSettled 1 (Fulfilled poseB)) w in
  reachable upload w
  /\ pending w !! 1 = Some (mkTask (Some imgB) (AwaitEstimate 7))
  /\ mounted w = true
  /\ pending w' = ∅
  /\ poses (component w') = [poseB]
  /\ canvasRef (component w') = Some (paint_results imgB [poseB] blank_canvas)
  /\ error (component w') = Some error_message.
Proof.
  split; [repeat apply run_reachable; constructor|].
  vm_compute; repeat split; reflexivity.
Qed.

(** Selecting the second image while the first is displayed: the index
    moves at once, the pose and the canvas still show the first image, and
    the pose is not emptied although an inference is in flight. *)
Lemma selection_moves_before_the_display :
  let w := handle (ImageSelected 1) two_images_shown in
  reachable upload w
  /\ currentImageIndex (component w) = 1
  /\ images (component w) !! 1 = Some imgB
  /\ isLoading (component w) = true
  /\ poses (component w) = [poseA]
  /\ canvasRef (component w) = Some (paint_results imgA [poseA] blank_canvas)
  /\ ~ displayed_pose_invariant w.
Proof.
  set (w := handle (ImageSelected 1) two_images_shown).
  assert (Hcomp : component w
                  = mkState [imgA; imgB] 1 [poseA] true None
                            (Some (paint_results imgA [poseA] blank_canvas))).
  { vm_compute. reflexivity. }
  split.
  { apply reachable_step; [apply run_reachable; constructor|].
    vm_compute. reflexivity. }
  rewrite Hcomp. simpl. repeat split; try reflexivity.
  intros [(img & c & Hi & Hc & Hs)|[Hp _]].
  - rewrite Hcomp in Hi, Hc, Hs. simpl in Hi, Hc, Hs.
    injection Hi as <-. injection Hc as <-.
    destruct Hs as [before Hs]. vm_compute in Hs. discriminate Hs.
  - rewrite Hcomp in Hp. discriminate Hp.
Qed.

(** Two calls overlap: the second image is selected while the first call
    is in flight; when the first call ends, the flag falls although the
    second call has not resolved. *)
Lemma flag_falls_while_a_call_is_in_flight :
  let w := run [ImageSelected 1; LoadSettled 0 (Fulfilled 7);
                EstimateSettled 0 (Fulfilled poseA)]
               both_decoded in
  reachable upload w
  /\ pending w !! 1 = Some (mkTask (Some imgB) AwaitLoad)
  /\ isLoading (component w) = false.
Proof.
  split.
  { apply run_reachable, run_reachable. constructor. }
  vm_compute. split; reflexivity.
Qed.

(** Two files chosen, the first decoded: nothing has been called, no
    image is set, and the second reader is still awaited. *)
Lemma first_decode_triggers_nothing :
  readers one_of_two_decoded !! 0 = Some [Some imgA; None]
  /\ pending one_of_two_decoded = ∅
  /\ trace one_of_two_decoded = []
  /\ images (component one_of_two_decoded) = [].
Proof. vm_compute. repeat split; reflexivity. Qed.

(** *** The theorems at concrete inputs *)

Lemma error_set_iff_try_block_throws_witness :
  quiet (estimatePose (Some imgB) two_images_shown)
        [LoadSettled 1 (Fulfilled 9); ImageSelected 0]
  /\ canvasRef (component (run [LoadSettled 1 (Fulfilled 9); ImageSelected 0]
                               (estimatePose (Some imgB) two_images_shown)))
     = Some (paint_results imgA [poseA] blank_canvas)
  /\ settles (nextTask two_images_shown) (EstimateSettled 1 (Fulfilled poseB)) = true
  /\ completes (run [LoadSettled 1 (Fulfilled 9); ImageSelected 0]
                    (estimatePose (Some imgB) two_images_shown))
               (EstimateSettled 1 (Fulfilled poseB)) = true
  /\ error (component
              (handle (EstimateSettled 1 (Fulfilled poseB))
                      (run [LoadSettled 1 (Fulfilled 9); ImageSelected 0]
                           (estimatePose (Some imgB) two_images_shown))))
     = None.
Proof.
  assert (Hq : quiet (estimatePose (Some imgB) two_images_shown)
                     [LoadSettled 1 (Fulfilled 9); ImageSelected 0]).
  { cbn [quiet]. split; [vm_compute; reflexivity|].
    split; [vm_compute; reflexivity|exact I]. }
  assert (Hc : canvasRef (component (run [LoadSettled 1 (Fulfilled 9); ImageSelected 0]
                                         (estimatePose (Some imgB) two_images_shown)))
               = Some (paint_results imgA [poseA] blank_canvas)).
  { vm_compute. reflexivity. }
  assert (Hs : settles (nextTask two_images_shown)
                       (EstimateSettled 1 (Fulfilled poseB)) = true).
  { vm_compute. reflexivity. }
  assert (He : completes (run [LoadSettled 1 (Fulfilled 9); ImageSelected 0]
                              (estimatePose (Some imgB) two_images_shown))
                         (EstimateSettled 1 (Fulfilled poseB)) = true).
  { vm_compute. reflexivity. }
  split; [exact Hq|]. split; [exact Hc|]. split; [exact Hs|]. split; [exact He|].
  destruct (error_set_iff_try_block_throws (Some imgB) two_images_shown _ _ _ Hq Hc Hs He)
    as (_ & _ & Hnone & _ & _).
  apply Hnone. exists poseB, imgB. split; reflexivity.
Defined.


Lemma select_then_success_gives_pose_of_selected_witness :
  images (component two_images_shown) !! 1 = Some imgB
  /\ (let w1 := handleImageSelect 1 two_images_shown in
      let w2 := handle (LoadSettled (nextTask two_images_shown) (Fulfilled 9)) w1 in
      let w3 := handle (EstimateSettled (nextTask two_images_shown) (Fulfilled poseB)) w2 in
      currentImageIndex (component w1) = 1
      /\ poses (component w3) = [poseB]
      /\ currentImageIndex (component w3) = 1).
Proof.
  assert (Hi : images (component two_images_shown) !! 1 = Some imgB).
  { vm_compute. reflexivity. }
  split; [exact Hi|].
  destruct (select_then_success_gives_pose_of_selected two_images_shown 1 imgB 9 poseB Hi)
    as (H1 & _ & _ & H3 & H4 & _).
  repeat split; assumption.
Defined.

Lemma download_filename_witness :
  currentImageIndex (component two_images_shown) = 0
  /\ canvasRef (component two_images_shown)
     = Some (paint_results imgA [poseA] blank_canvas)
  /\ trace (handle DownloadClicked two_images_shown)
     = trace two_images_shown
       ++ [Call_link_click "pose_estimation_1.png"
             "data:image/octet-stream;base64,iVBORw0KGgo="].
Proof.
  assert (Hi : currentImageIndex (component two_images_shown) = 0).
  { vm_compute. reflexivity. }
  assert (Hc : canvasRef (component two_images_shown)
               = Some (paint_results imgA [poseA] blank_canvas)).
  { vm_compute. reflexivity. }
  split; [exact Hi|]. split; [exact Hc|].
  exact (proj2 (download_filename two_images_shown 0 _ Hi Hc)).
Defined.

Lemma loading_flag_between_start_and_resolution_witness :
  quiet (estimatePose (Some imgA) (initial upload)) [LoadSettled 0 (Fulfilled 7)]
  /\ completes (run [LoadSettled 0 (Fulfilled 7)]
                    (estimatePose (Some imgA) (initial upload)))
               (EstimateSettled 0 (Rejected (Rejection "model"))) = true
  /\ (let w1 := estimatePose (Some imgA) (initial upload) in
      let wk := run [LoadSettled 0 (Fulfilled 7)] w1 in
      (forall n, isLoading (component (run (take n [LoadSettled 0 (Fulfilled 7)]) w1)) = true)
      /\ isLoading (component
                      (handle (EstimateSettled 0 (Rejected (Rejection "model"))) wk))
         = false).
Proof.
  assert (Hq : quiet (estimatePose (Some imgA) (initial upload))
                     [LoadSettled 0 (Fulfilled 7)]).
  { simpl. split; [reflexivity|exact I]. }
  assert (He : completes (run [LoadSettled 0 (Fulfilled 7)]
                              (estimatePose (Some imgA) (initial upload)))
                         (EstimateSettled 0 (Rejected (Rejection "model"))) = true).
  { vm_compute. reflexivity. }
  split; [exact Hq|]. split; [exact He|].
  destruct (loading_flag_between_start_and_resolution
              (Some imgA) (initial upload) _ _ Hq He) as (_ & Hall & _ & Hend & _).
  split; assumption.
Defined.

Lemma displayed_pose_is_the_pose_state_witness :
  canvasRef (component (initial upload)) = Some blank_canvas
  /\ canvasRef (component two_images_shown)
     = Some (paint_results imgA [poseA] blank_canvas)
  /\ images (component two_images_shown) !! 1 = Some imgB
  /\ ((poses (component (initial upload)) = [] /\ blank_canvas = blank_canvas)
      \/ (exists shown pose0, poses (component (initial upload)) = [pose0]
                              /\ shows blank_canvas shown [pose0]))
  /\ (let w1 := handleImageSelect 1 two_images_shown in
      let w2 := handle (LoadSettled (nextTask two_images_shown) (Fulfilled 9)) w1 in
      let w3 := handle (EstimateSettled (nextTask two_images_shown) (Fulfilled poseB)) w2 in
      poses (component w1) = poses (component two_images_shown)
      /\ displayed_pose_invariant w3).
Proof.
  assert (Hc0 : canvasRef (component (initial upload)) = Some blank_canvas).
  { reflexivity. }
  assert (Hc : canvasRef (component two_images_shown)
               = Some (paint_results imgA [poseA] blank_canvas)).
  { vm_compute. reflexivity. }
  assert (Hi : images (component two_images_shown) !! 1 = Some imgB).
  { vm_compute. reflexivity. }
  split; [exact Hc0|]. split; [exact Hc|]. split; [exact Hi|].
  split; [exact (proj1 (displayed_pose_is_the_pose_state upload [] _ Hc0))|].
  destruct (displayed_pose_is_the_pose_state
              upload
              [FilesChosen [fileA; fileB]; FileDecoded 0 0 imgA; FileDecoded 0 1 imgB;
               LoadSettled 0 (Fulfilled 7); EstimateSettled 0 (Fulfilled poseA)]
              _ Hc) as (_ & Hsel).
  destruct (Hsel 1 imgB 9 poseB Hi) as ((H1 & _) & (_ & _ & _ & H3)).
  split; assumption.
Defined.

Lemma inference_starts_when_every_file_is_decoded_witness :
  0 < length [fileA; fileB]
  /\ readers one_of_two_decoded !! 0 = Some [Some imgA; None]
  /\ [Some imgA; None] !! 1 = Some None
  /\ trace (loadImages [fileA; fileB] (initial upload)) = trace (initial upload)
  /\ exists first,
      [imgA; imgB] !! 0 = Some first
      /\ pending (reader_resolved 0 1 imgB one_of_two_decoded)
           !! nextTask one_of_two_decoded
         = Some (mkTask (Some first) AwaitLoad).
Proof.
  assert (Hf : 0 < length [fileA; fileB]) by (simpl; lia).
  assert (Hb : readers one_of_two_decoded !! 0 = Some [Some imgA; None]).
  { vm_compute. reflexivity. }
  assert (Hk : [Some imgA; None] !! 1 = Some (@None Image)) by reflexivity.
  split; [exact Hf|]. split; [exact Hb|]. split; [exact Hk|].
  destruct (inference_starts_when_every_file_is_decoded
              (initial upload) one_of_two_decoded [fileA; fileB] 0 1
              [Some imgA; None] imgB Hf Hb Hk) as ((_ & Htr & _) & _ & Hall).
  split; [exact Htr|].
  destruct (Hall [imgA; imgB] eq_refl) as (first & Hfirst & _ & _ & Hp).
  exists first. split; assumption.
Defined.

Lemma rendered_keypoints_are_the_confident_ones_witness :
  canvasRef (component (initial upload)) = Some blank_canvas
  /\ exists c',
      canvasRef (component
                   (estimatePose_estimated 0 (Some imgA) (Fulfilled poseA) (initial upload)))
      = Some c'
      /\ filled_markers (painted c') = 2.
Proof.
  split; [reflexivity|].
  destruct (rendered_keypoints_are_the_confident_ones
              (initial upload) 0 imgA poseA blank_canvas eq_refl) as [_ H].
  exact H.
Defined.

(** *** The further theorems at concrete inputs *)

Lemma loading_flag_implies_call_in_flight_witness :
  isLoading (component (run [PreloadedImage (Some imgA)] (initial preloaded))) = true
  /\ exists task img stage,
      pending (run [PreloadedImage (Some imgA)] (initial preloaded)) !! task
      = Some (mkTask img stage)
      /\ task < nextTask (run [PreloadedImage (Some imgA)] (initial preloaded)).
Proof.
  assert (Hup : isLoading (component (run [PreloadedImage (Some imgA)]
                                          (initial preloaded))) = true).
  { vm_compute. reflexivity. }
  split; [exact Hup|].
  exact (loading_flag_implies_call_in_flight preloaded _ Hup).
Defined.

Lemma download_names_differ_witness :
  0 <> 1 /\ download_name 0 <> download_name 1.
Proof.
  assert (H : 0 <> 1) by lia.
  split; [exact H|]. exact (download_names_differ 0 1 H).
Defined.

Lemma download_href_is_octet_stream_witness :
  canvasRef (component two_images_shown)
  = Some (paint_results imgA [poseA] blank_canvas)
  /\ toDataURL (paint_results imgA [poseA] blank_canvas) "image/png"
     = "data:image/png" +:+ ";base64,iVBORw0KGgo="
  /\ handleDownload two_images_shown
     = Normal (emit (Call_link_click
                       "pose_estimation_1.png"
                       "data:image/octet-stream;base64,iVBORw0KGgo=")
                    two_images_shown).
Proof.
  assert (Hc : canvasRef (component two_images_shown)
               = Some (paint_results imgA [poseA] blank_canvas)).
  { vm_compute. reflexivity. }
  assert (Hurl : toDataURL (paint_results imgA [poseA] blank_canvas) "image/png"
                 = "data:image/png" +:+ ";base64,iVBORw0KGgo=") by reflexivity.
  split; [exact Hc|]. split; [exact Hurl|].
  exact (download_href_is_octet_stream two_images_shown _ _ Hc Hurl).
Defined.

Lemma select_out_of_range_ends_in_error_witness :
  length (images (component two_images_shown)) <= 5
  /\ (let w' := estimatePose_alone None (Estimated 7 poseA)
                                   (setCurrentImageIndex 5 two_images_shown) in
      currentImageIndex (component w') = 5
      /\ error (component w') = Some error_message).
Proof.
  assert (Hi : length (images (component two_images_shown)) <= 5).
  { vm_compute. lia. }
  split; [exact Hi|].
  destruct (select_out_of_range_ends_in_error two_images_shown 5 (Estimated 7 poseA) Hi)
    as (_ & _ & H1 & H2 & _).
  split; assumption.
Defined.

Lemma images_follow_file_order_witness :
  [(1, imgB); (0, imgA)].*1 ≡ₚ seq 0 (length [fileA; fileB])
  /\ Forall (fun d => [imgA; imgB] !! (fst d) = Some (snd d)) [(1, imgB); (0, imgA)]
  /\ length [imgA; imgB] = length [fileA; fileB]
  /\ [imgA; imgB] !! 0 = Some imgA
  /\ (let w' := run (decode_events 0 [(1, imgB); (0, imgA)])
                    (loadImages [fileA; fileB] (initial upload)) in
      images (component w') = [imgA; imgB]
      /\ pending w' !! 0 = Some (mkTask (Some imgA) AwaitLoad)).
Proof.
  assert (Hperm : [(1, imgB); (0, imgA)].*1 ≡ₚ seq 0 (length [fileA; fileB])).
  { simpl. apply perm_swap. }
  assert (Himgs : Forall (fun d => [imgA; imgB] !! (fst d) = Some (snd d))
                         [(1, imgB); (0, imgA)]).
  { repeat constructor. }
  assert (Hlen : length [imgA; imgB] = length [fileA; fileB]) by reflexivity.
  assert (Hfirst : [imgA; imgB] !! 0 = Some imgA) by reflexivity.
  split; [exact Hperm|]. split; [exact Himgs|]. split; [exact Hlen|].
  split; [exact Hfirst|].
  destruct (images_follow_file_order (initial upload) [fileA; fileB] _ _ _
              Hperm Himgs Hlen Hfirst) as (H1 & _ & _ & _ & _ & H2).
  split; assumption.
Defined.

Lemma stale_result_overwrites_newer_selection_witness :
  images (component two_images_shown) !! 0 = Some imgA
  /\ images (component two_images_shown) !! 1 = Some imgB
  /\ canvasRef (component two_images_shown)
     = Some (paint_results imgA [poseA] blank_canvas)
  /\ (let t := nextTask two_images_shown in
      let w2 := handleImageSelect 1 (handleImageSelect 0 two_images_shown) in
      let w4 := handle (LoadSettled (S t) (Fulfilled 9))
                  (handle (LoadSettled t (Fulfilled 8)) w2) in
      let w5 := handle (EstimateSettled (S t) (Fulfilled poseB)) w4 in
      let w6 := handle (EstimateSettled t (Fulfilled poseA)) w5 in
      currentImageIndex (component w6) = 1
      /\ poses (component w6) = [poseA]
      /\ canvasRef (component w6) = Some (paint_results imgA [poseA] blank_canvas)).
Proof.
  assert (Hi : images (component two_images_shown) !! 0 = Some imgA).
  { vm_compute. reflexivity. }
  assert (Hj : images (component two_images_shown) !! 1 = Some imgB).
  { vm_compute. reflexivity. }
  assert (Hc : canvasRef (component two_images_shown)
               = Some (paint_results imgA [poseA] blank_canvas)).
  { vm_compute. reflexivity. }
  split; [exact Hi|]. split; [exact Hj|]. split; [exact Hc|].
  destruct (stale_result_overwrites_newer_selection
              two_images_shown 0 1 imgA imgB 8 9 poseA poseB _ Hi Hj Hc)
    as (_ & H1 & _ & H2 & H3 & _).
  repeat split; assumption.
Defined.

Lemma model_is_only_asked_about_held_images_witness :
  Call_estimateSinglePose 0 7 (Some imgA) ∈ trace two_images_shown
  /\ exists img imgs,
      Some imgA = Some img
      /\ Call_setImages imgs ∈ trace two_images_shown
      /\ img ∈ imgs.
Proof.
  assert (Hasked : Call_estimateSinglePose 0 7 (Some imgA) ∈ trace two_images_shown).
  { apply (list_elem_of_lookup_2 _ 4). vm_compute. reflexivity. }
  split; [exact Hasked|].
  exact (model_is_only_asked_about_held_images
           upload
           [FilesChosen [fileA; fileB]; FileDecoded 0 0 imgA; FileDecoded 0 1 imgB;
            LoadSettled 0 (Fulfilled 7); EstimateSettled 0 (Fulfilled poseA)]
           0 7 (Some imgA) Hasked).
Defined.
